(** * origami.batch.core.mutex: lock providers for the batch pipeline

    A shallow embedding of [src/origami/batch/core/mutex.py]: the retry
    helper [run_db_operation], the store-backed [DatabaseMutex], the
    advisory-lock [FileMutex] and the no-op [DummyMutex], followed by the
    properties the specification states about them.

    Conventions.
    - The relational store is one table of rows with the primary key
      (path, processor). The connections carry no transaction: the
      listener of [_connect] sets [isolation_level] to [None], and the
      listener that would send BEGIN EXCLUSIVE runs only for a
      transaction begun by the program, which begins none. So every
      statement is committed on its own, and an insert of several rows is
      one statement for each row.
    - What the program cannot decide itself is read from an environment:
      the process id, the successive readings of the clock, whether the
      store answers "busy" to the k-th statement, and what the operating
      system answers to an attempt to lock a file.
    - Python exceptions are explicit outcomes; [try]/[except]/[finally] and
      generator-based context managers are modelled by the combinators of
      the sections [Effects] and [ContextManagers]. *)

From Stdlib Require Import Ascii String List ZArith QArith Bool Arith Lia.
From Equations Require Import Equations.
Import ListNotations.

Set Implicit Arguments.
Local Open Scope string_scope.
Local Open Scope list_scope.
Local Open Scope Z_scope.

(** ** Exceptions and outcomes *)

Inductive exn : Type :=
| OperationalError                (* sqlalchemy.exc.OperationalError *)
| IntegrityError                  (* sqlalchemy.exc.IntegrityError *)
| RuntimeError (msg : string)
| AlreadyLocked                   (* portalocker.exceptions.AlreadyLocked *)
| LockException                   (* portalocker.exceptions.LockException *)
| FileNotFoundError
| AttributeError (name : string)
| OtherError (tag : string).      (* anything else, e.g. from a caller's body *)

Inductive outcome (A : Type) : Type :=
| Return (a : A)
| Raise (e : exn).
Arguments Return {A} a.
Arguments Raise {A} e.

(** ** The lock table *)

(** One row of the table "mutex" (columns path, processor, pid, time). The
    time is a [datetime], kept in microseconds. *)
Record Row : Type := mkRow {
  row_path : string;
  row_processor : string;
  row_pid : Z;
  row_time : Z }.

Definition row_key (r : Row) : string * string := (row_path r, row_processor r).

Definition key_eqb (k1 k2 : string * string) : bool :=
  String.eqb (fst k1) (fst k2) && String.eqb (snd k1) (snd k2).

Definition has_key (k : string * string) (t : list Row) : bool :=
  existsb (fun r => key_eqb (row_key r) k) t.

(** The conjuncts of a [where(and_(...))]. *)
Inductive clause : Type :=
| TimeLt (threshold : Z)              (* table.c.time < threshold *)
| ProcessorEq (processor : string)    (* table.c.processor == processor *)
| PathIn (paths : list string)        (* table.c.path.in_(paths) *)
| PidEq (pid : Z).                    (* table.c.pid == pid *)

Inductive stmt : Type :=
| Insert (rows : list Row)            (* table.insert(), [rows] *)
| Delete (where_ : list clause).      (* table.delete().where(and_(...)) *)

Definition mem_string (x : string) (l : list string) : bool :=
  existsb (String.eqb x) l.

Definition clause_holds (c : clause) (r : Row) : bool :=
  match c with
  | TimeLt threshold => row_time r <? threshold
  | ProcessorEq processor => String.eqb (row_processor r) processor
  | PathIn paths => mem_string (row_path r) paths
  | PidEq pid => row_pid r =? pid
  end.

Definition matches (where_ : list clause) (r : Row) : bool :=
  forallb (fun c => clause_holds c r) where_.

(** What an insert of the rows leaves when the store answers every one of
    them: rows are inserted and committed one after the other; the first
    one whose key is already present violates [mutex_pk] and ends the
    insert, and the rows before it stay. The flag tells whether all rows
    went in. *)
Fixpoint insert_rows (rows : list Row) (t : list Row) : list Row * bool :=
  match rows with
  | [] => (t, true)
  | r :: rows' =>
      if has_key (row_key r) t then (t, false)
      else insert_rows rows' (t ++ [r])
  end.

Definition delete_where (where_ : list clause) (t : list Row) : list Row :=
  filter (fun r => negb (matches where_ r)) t.

(** ** Environment and state *)

Inductive event : Type :=
| EvSleep (seconds : Q)          (* time.sleep(seconds) *)
| EvExecute (s : stmt)           (* conn.execute(s) reached the store *)
| EvAcquire (path : string)      (* portalocker.Lock(path).acquire() *)
| EvRelease (path : string).     (* portalocker.Lock(path).release() *)

Record Env : Type := mkEnv {
  getpid : Z;                        (* os.getpid() *)
  now : nat -> Z;                    (* k-th reading of datetime.now() *)
  busy : nat -> bool;                (* the k-th statement finds the store busy *)
  os_lock : string -> outcome unit   (* answer to an attempt to lock a file *) }.

Record State : Type := mkState {
  table : list Row;         (* contents of the store *)
  clock_reads : nat;        (* readings of the clock so far *)
  accesses : nat;           (* statements sent to the store so far *)
  connections : nat;        (* connections currently open *)
  held : list string;       (* files this process holds an advisory lock on *)
  trace : list event }.     (* effects so far, oldest first *)

Definition set_table (t : list Row) (s : State) : State :=
  mkState t (clock_reads s) (accesses s) (connections s) (held s) (trace s).
Definition tick_clock (s : State) : State :=
  mkState (table s) (S (clock_reads s)) (accesses s) (connections s) (held s) (trace s).
Definition tick_access (s : State) : State :=
  mkState (table s) (clock_reads s) (S (accesses s)) (connections s) (held s) (trace s).
Definition set_connections (n : nat) (s : State) : State :=
  mkState (table s) (clock_reads s) (accesses s) n (held s) (trace s).
Definition set_held (h : list string) (s : State) : State :=
  mkState (table s) (clock_reads s) (accesses s) (connections s) h (trace s).
Definition log (e : event) (s : State) : State :=
  mkState (table s) (clock_reads s) (accesses s) (connections s) (held s) (trace s ++ [e]).

(** ** Effects *)

Section Effects.

Definition M (A : Type) : Type := Env -> State -> outcome A * State.

Definition ret {A} (a : A) : M A := fun _ s => (Return a, s).

Definition raise {A} (e : exn) : M A := fun _ s => (Raise e, s).

Definition bind {A B} (m : M A) (k : A -> M B) : M B :=
  fun env s =>
    match m env s with
    | (Return a, s1) => k a env s1
    | (Raise e, s1) => (Raise e, s1)
    end.

(** [try: m except <classes selected by handler>: ...] *)
Definition try_except {A} (m : M A) (handler : exn -> option (M A)) : M A :=
  fun env s =>
    match m env s with
    | (Return a, s1) => (Return a, s1)
    | (Raise e, s1) =>
        match handler e with
        | Some h => h env s1
        | None => (Raise e, s1)
        end
    end.

(** [try: m finally: cleanup]; an exception of the cleanup replaces the
    outcome of [m]. *)
Definition try_finally {A} (m : M A) (cleanup : M unit) : M A :=
  fun env s =>
    match m env s with
    | (r, s1) =>
        match cleanup env s1 with
        | (Return _, s2) => (r, s2)
        | (Raise e, s2) => (Raise e, s2)
        end
    end.

Fixpoint mapM {A B} (f : A -> M B) (l : list A) : M (list B) :=
  match l with
  | [] => ret []
  | x :: l' =>
      bind (f x) (fun y => bind (mapM f l') (fun ys => ret (y :: ys)))
  end.

End Effects.

Declare Scope effect_scope.
Delimit Scope effect_scope with eff.
Notation "x <- m ;; k" := (bind m (fun x => k))
  (at level 61, m at next level, right associativity) : effect_scope.
Notation "m ;; k" := (bind m (fun _ => k))
  (at level 61, right associativity) : effect_scope.
Local Open Scope effect_scope.

(** ** Primitive effects *)

Definition time_sleep (seconds : Q) : M unit :=
  fun _ s => (Return tt, log (EvSleep seconds) s).

Definition datetime_now : M Z :=
  fun env s => (Return (now env (clock_reads s)), tick_clock s).

Definition os_getpid : M Z :=
  fun env s => (Return (getpid env), s).

(** [self._engine.connect()] with a [NullPool]: a fresh connection. *)
Definition connect : M unit :=
  fun _ s => (Return tt, set_connections (S (connections s)) s).

Definition close : M unit :=
  fun _ s => (Return tt, set_connections (pred (connections s)) s).

(** One INSERT of one row, committed at once: a busy store raises the
    operational error and a key that is present the integrity error. *)
Definition insert_one (r : Row) : M unit :=
  fun env s =>
    let s1 := tick_access s in
    if busy env (accesses s) then (Raise OperationalError, s1)
    else if has_key (row_key r) (table s) then (Raise IntegrityError, s1)
    else (Return tt, set_table (table s ++ [r]) s1).

(** [cursor.executemany] for the rows of an insert: the first exception
    ends it. *)
Fixpoint executemany (rows : list Row) : M unit :=
  match rows with
  | [] => ret tt
  | r :: rows' => insert_one r ;; executemany rows'
  end.

(** An insert without rows is sent as INSERT ... DEFAULT VALUES, which the
    columns, all declared NOT NULL, refuse with the integrity error. *)
Definition insert_default_values : M unit :=
  fun env s =>
    let s1 := tick_access s in
    if busy env (accesses s) then (Raise OperationalError, s1)
    else (Raise IntegrityError, s1).

(** [conn.execute(stmt)] *)
Definition execute (st : stmt) : M unit :=
  fun env s =>
    let s0 := log (EvExecute st) s in
    match st with
    | Insert [] => insert_default_values env s0
    | Insert rows => executemany rows env s0
    | Delete where_ =>
        let s1 := tick_access s0 in
        if busy env (accesses s) then (Raise OperationalError, s1)
        else (Return tt, set_table (delete_where where_ (table s)) s1)
    end.

(** ** Dates *)

(** A [datetime] is counted in microseconds from [datetime.min], the first
    instant of the year 1; [datetime.max] is the last microsecond of the
    year 9999. *)
Definition datetime_max : Z := 3652059 * 86400 * 1000000 - 1.

Definition overflow_error : exn := OtherError "OverflowError".

(** [datetime.timedelta(seconds=seconds)], in microseconds; the number of
    days must not exceed 999999999 in magnitude. *)
Definition timedelta (seconds : Z) : outcome Z :=
  if Z.abs (seconds / 86400) <=? 999999999 then Return (seconds * 1000000)
  else Raise overflow_error.

(** [t - delta] for a [datetime] and a [timedelta] *)
Definition datetime_sub (t delta : Z) : outcome Z :=
  if (0 <=? t - delta) && (t - delta <=? datetime_max) then Return (t - delta)
  else Raise overflow_error.

(** A computation without effect that may raise. *)
Definition lift {A} (o : outcome A) : M A := fun _ s => (o, s).

(** ** run_db_operation *)

(** The delay [0.1 * (2 ** backoff)], in seconds; the float 0.1 is taken
    as the rational 1/10. *)
Definition backoff_delay (backoff : Z) : Q := ((1 # 10) * inject_Z (2 ^ backoff))%Q.

(** Retries still allowed once the counter stands at [backoff]. *)
Definition retries_left (backoff : Z) : nat := Z.to_nat (9 - backoff).
Arguments retries_left : simpl never.

Equations? run_db_operation_loop {A} (operation : M A) (backoff : Z)
    (env : Env) (s : State) : outcome A * State
    by wf (retries_left backoff) lt :=
  run_db_operation_loop operation backoff env s with operation env s => {
    | (Return a, s1) => (Return a, s1);
    | (Raise OperationalError, s1) with Z_gt_dec backoff 8 => {
        | left _ => (Raise OperationalError, s1);
        | right _ =>
            run_db_operation_loop operation (backoff + 1) env
              (snd (time_sleep (backoff_delay backoff) env s1)) };
    | (Raise e, s1) => (Raise e, s1) }.
Proof. unfold retries_left. lia. Qed.

Definition run_db_operation {A} (operation : M A) : M A :=
  run_db_operation_loop operation 0.

(** ** Generators and [contextlib.contextmanager] *)

Section ContextManagers.

(** A generator that has run up to its next suspension: it either
    finished (returned or raised) or stands at a [yield] and can be
    resumed, with [None] by [next] and with [Some e] by [throw(e)]. *)
#[warnings="-register-all"]
Inductive Gen (Y : Type) : Type :=
| Finished (r : outcome unit)
| Yielded (y : Y) (resume : option exn -> Env -> State -> Gen Y * State).
Arguments Finished {Y} r.
Arguments Yielded {Y} y resume.

Definition GenM (Y : Type) : Type := Env -> State -> Gen Y * State.

(** The end of a generator body reached after a resumption: a thrown
    exception that nothing caught leaves the generator. *)
Definition fall_through {Y} (exc : option exn) : Gen Y :=
  match exc with
  | None => Finished (Return tt)
  | Some e => Finished (Raise e)
  end.

(** [__enter__]: run the generator to its first [yield]. *)
Definition cm_enter {Y} (g : GenM Y)
  : M (Y * (option exn -> Env -> State -> Gen Y * State)) :=
  fun env s =>
    match g env s with
    | (Yielded y resume, s1) => (Return (y, resume), s1)
    | (Finished (Return _), s1) => (Raise (RuntimeError "generator didn't yield"), s1)
    | (Finished (Raise e), s1) => (Raise e, s1)
    end.

(** [__exit__]: resume the generator, which has to finish. The result
    [true] says that the exception of the body was swallowed; an
    exception that leaves the generator is raised again. *)
Definition cm_exit {Y} (resume : option exn -> Env -> State -> Gen Y * State)
    (exc : option exn) : M bool :=
  fun env s =>
    match resume exc env s with
    | (Finished (Return _), s1) =>
        (Return (match exc with Some _ => true | None => false end), s1)
    | (Finished (Raise e), s1) => (Raise e, s1)
    | (Yielded _ _, s1) =>
        (Raise (RuntimeError (match exc with
                              | Some _ => "generator didn't stop after throw()"
                              | None => "generator didn't stop"
                              end)), s1)
    end.

(** [with g as y: body(y)]. The result is [None] when the body raised
    and the context manager swallowed the exception. *)
Definition with_ {Y B} (g : GenM Y) (body : Y -> M B) : M (option B) :=
  fun env s =>
    match cm_enter g env s with
    | (Raise e, s1) => (Raise e, s1)
    | (Return (y, resume), s1) =>
        match body y env s1 with
        | (Return b, s2) =>
            match cm_exit resume None env s2 with
            | (Return _, s3) => (Return (Some b), s3)
            | (Raise e, s3) => (Raise e, s3)
            end
        | (Raise e, s2) =>
            match cm_exit resume (Some e) env s2 with
            | (Return true, s3) => (Return None, s3)
            | (Return false, s3) => (Raise e, s3)
            | (Raise e', s3) => (Raise e', s3)
            end
        end
    end.

End ContextManagers.

Arguments Finished {Y} r.
Arguments Yielded {Y} y resume.

(** ** DatabaseMutex *)

Module DatabaseMutex.

(** The argument list of the insert in [try_lock]: one dictionary per
    path, each with its own reading of the clock. *)
Definition lock_rows (processor : string) (paths : list string) : M (list Row) :=
  mapM (fun p =>
          pid <- os_getpid ;;
          time <- datetime_now ;;
          ret (mkRow p processor pid time))
       paths.

Definition clear_locks_perform (age : Z) : M unit :=
  connect ;;
  try_finally
    (st <- (if age =? 0 then ret (Delete [])
            else (t <- datetime_now ;;
                  delta <- lift (timedelta age) ;;
                  threshold <- lift (datetime_sub t delta) ;;
                  ret (Delete [TimeLt threshold]))) ;;
     execute st)
    close.

Definition clear_locks (age : Z) : M unit :=
  run_db_operation (clear_locks_perform age).

Definition try_lock_perform (processor : string) (paths : list string) : M bool :=
  connect ;;
  try_finally
    (try_except
       (rows <- lock_rows processor paths ;;
        execute (Insert rows) ;;
        ret true)
       (fun e => match e with
                 | IntegrityError => Some (ret false)
                 | _ => None
                 end))
    close.

Definition try_lock (processor : string) (paths : list string) : M bool :=
  run_db_operation (try_lock_perform processor paths).

Definition unlock_perform (processor : string) (paths : list string) : M unit :=
  connect ;;
  try_finally
    (pid <- os_getpid ;;
     execute (Delete [ProcessorEq processor; PathIn paths; PidEq pid]))
    close.

Definition unlock (processor : string) (paths : list string) : M unit :=
  run_db_operation (unlock_perform processor paths).

(** [lock]: the [yield] stands in a [try] whose [finally]
    unlocks when the acquisition had succeeded. *)
Definition lock (processor : string) (paths : list string) : GenM bool :=
  fun env s =>
    match try_lock processor paths env s with
    | (Raise e, s1) => (Finished (Raise e), s1)
    | (Return success, s1) =>
        (Yielded success
           (fun exc env s2 =>
              match (if success then unlock processor paths else ret tt) env s2 with
              | (Return _, s3) => (fall_through exc, s3)
              | (Raise e, s3) => (Finished (Raise e), s3)
              end),
         s1)
    end.

End DatabaseMutex.

(** ** FileMutex *)

Module FileMutex.

(** [portalocker.Lock(path, "r", flags=LOCK_EX, timeout=1,
    fail_when_locked=True).__enter__()] *)
Definition portalocker_acquire (path : string) : M unit :=
  fun env s =>
    let s1 := log (EvAcquire path) s in
    match os_lock env path with
    | Return _ => (Return tt, set_held (path :: held s1) s1)
    | Raise e => (Raise e, s1)
    end.

Fixpoint drop_first (path : string) (l : list string) : list string :=
  match l with
  | [] => []
  | x :: l' => if String.eqb x path then l' else x :: drop_first path l'
  end.

(** [portalocker.Lock.__exit__], which never swallows an exception. *)
Definition portalocker_release (path : string) : M unit :=
  fun env s =>
    (Return tt, log (EvRelease path) (set_held (drop_first path (held s)) s)).

(** [except (AlreadyLocked, LockException)] *)
Definition is_lock_failure (e : exn) : bool :=
  match e with
  | AlreadyLocked | LockException => true
  | _ => false
  end.

(** The handler [yield False]; nothing follows it in the generator. *)
Definition yield_false : Gen bool :=
  Yielded false (fun exc _ s => (fall_through exc, s)).

Definition lock (processor : string) (paths : list string) : GenM bool :=
  fun env s =>
    if negb (Nat.eqb (length paths) 1) then
      (Finished (Raise (RuntimeError "FileMutex does not support chunked locking")), s)
    else
      let path := nth 0 paths "" in
      match portalocker_acquire path env s with
      | (Return _, s1) =>
          (Yielded true
             (fun exc env s2 =>
                match portalocker_release path env s2 with
                | (_, s3) =>
                    match exc with
                    | None => (Finished (Return tt), s3)
                    | Some e =>
                        if is_lock_failure e then (yield_false, s3)
                        else (Finished (Raise e), s3)
                    end
                end),
           s1)
      | (Raise e, s1) =>
          if is_lock_failure e then (yield_false, s1)
          else (Finished (Raise e), s1)
      end.

End FileMutex.

(** ** DummyMutex *)

Module DummyMutex.

Definition try_lock (processor : string) (paths : list string) : M bool :=
  ret true.

Definition unlock (processor : string) (paths : list string) : M unit :=
  ret tt.

Definition lock (processor : string) (paths : list string) : GenM bool :=
  fun _ s => (Yielded true (fun exc _ s1 => (fall_through exc, s1)), s).

End DummyMutex.

(** ** The classes as attribute tables *)

Inductive attribute : Type :=
| TryLockMethod (f : string -> list string -> M bool)
| UnlockMethod (f : string -> list string -> M unit)
| LockMethod (f : string -> list string -> GenM bool)
| ClearLocksMethod (f : Z -> M unit)
| InternalMethod.   (* __init__, __getstate__, __setstate__, _connect *)

Inductive provider : Type :=
| DatabaseMutexClass
| FileMutexClass
| DummyMutexClass.

(** What each class body defines, in the order of the source. *)
Definition class_dict (c : provider) : list (string * attribute) :=
  match c with
  | DatabaseMutexClass =>
      [("__init__", InternalMethod);
       ("__getstate__", InternalMethod);
       ("__setstate__", InternalMethod);
       ("_connect", InternalMethod);
       ("clear_locks", ClearLocksMethod DatabaseMutex.clear_locks);
       ("try_lock", TryLockMethod DatabaseMutex.try_lock);
       ("unlock", UnlockMethod DatabaseMutex.unlock);
       ("lock", LockMethod DatabaseMutex.lock)]
  | FileMutexClass =>
      [("lock", LockMethod FileMutex.lock)]
  | DummyMutexClass =>
      [("try_lock", TryLockMethod DummyMutex.try_lock);
       ("unlock", UnlockMethod DummyMutex.unlock);
       ("lock", LockMethod DummyMutex.lock)]
  end.

Definition getattr (c : provider) (name : string) : option attribute :=
  option_map snd (find (fun entry => String.eqb (fst entry) name) (class_dict c)).

Definition hasattr (c : provider) (name : string) : bool :=
  match getattr c name with Some _ => true | None => false end.

(** A caller configured with a provider: [mutex.try_lock(processor, paths)],
    [mutex.unlock(processor, paths)] and
    [with mutex.lock(processor, paths) as locked: body(locked)]. *)
Definition call_try_lock (mutex : provider) (processor : string) (paths : list string) : M bool :=
  match getattr mutex "try_lock" with
  | Some (TryLockMethod f) => f processor paths
  | _ => raise (AttributeError "try_lock")
  end.

Definition call_unlock (mutex : provider) (processor : string) (paths : list string) : M unit :=
  match getattr mutex "unlock" with
  | Some (UnlockMethod f) => f processor paths
  | _ => raise (AttributeError "unlock")
  end.

Definition call_lock {B} (mutex : provider) (processor : string) (paths : list string)
    (body : bool -> M B) : M (option B) :=
  match getattr mutex "lock" with
  | Some (LockMethod f) => with_ (f processor paths) body
  | _ => raise (AttributeError "lock")
  end.

(** * origami.batch.detect.dewarp and origami.core.page

    The parts of [src/origami/batch/detect/dewarp.py] and
    [src/origami/core/page.py] that decide something themselves: the
    filter on region paths, the generator of dewarped contours, the search
    for the image of a page and the collection of contours by class.
    Strings are sequences of code points below 256; the geometry library,
    the archive and the file system are given from outside. *)

(** ** Strings *)

Module PyStr.

(** [str.isspace] for one character. *)
Definition is_space (c : Ascii.ascii) : bool :=
  let n := Ascii.nat_of_ascii c in
  (Nat.leb 9 n && Nat.leb n 13) || (Nat.leb 28 n && Nat.leb n 32)
  || Nat.eqb n 133 || Nat.eqb n 160.

Fixpoint lstrip (s : string) : string :=
  match s with
  | EmptyString => EmptyString
  | String c s' => if is_space c then lstrip s' else s
  end.

Fixpoint rstrip (s : string) : string :=
  match s with
  | EmptyString => EmptyString
  | String c s' =>
      match rstrip s' with
      | EmptyString => if is_space c then EmptyString else String c EmptyString
      | r => String c r
      end
  end.

(** [s.strip()] *)
Definition strip (s : string) : string := rstrip (lstrip s).

(** [s.split(sep)] for a separator of one character: one more part than
    there are separators, empty parts included. *)
Fixpoint split (sep : Ascii.ascii) (s : string) : list string :=
  match s with
  | EmptyString => [EmptyString]
  | String c s' =>
      if Ascii.eqb c sep then EmptyString :: split sep s'
      else match split sep s' with
           | [] => [String c EmptyString]
           | part :: parts => String c part :: parts
           end
  end.

(** [s.endswith(suffix)] *)
Definition endswith (s suffix : string) : bool :=
  let n := String.length s in
  let m := String.length suffix in
  Nat.leb m n && String.eqb (substring (n - m) m s) suffix.

(** Equality of tuples of strings. *)
Fixpoint tuple_eqb (t1 t2 : list string) : bool :=
  match t1, t2 with
  | [], [] => true
  | x :: t1', y :: t2' => String.eqb x y && tuple_eqb t1' t2'
  | _, _ => false
  end.

End PyStr.

(** ** RegionsFilter *)

Module RegionsFilter.

(** [__init__]: the set [self._paths], one tuple per item of the
    comma-separated [spec]. *)
Definition init (spec : string) : list (list string) :=
  map (fun s => PyStr.split "/"%char (PyStr.strip s)) (PyStr.split ","%char spec).

(** [__call__]: [tuple(path[:2]) in self._paths] *)
Definition call (paths : list (list string)) (path : list string) : bool :=
  existsb (PyStr.tuple_eqb (firstn 2 path)) paths.

End RegionsFilter.

(** The default of the option [--regions]. *)
Definition default_regions : string := "regions/TEXT, regions/TABULAR".

(** ** dewarped_contours *)

(** What the generator uses of shapely. *)
Class Shapely : Type := mkShapely {
  geometry : Type;
  wkt_loads : string -> outcome geometry;   (* shapely.wkt.loads(data.decode("utf8")) *)
  is_empty : geometry -> bool;
  is_valid : geometry -> bool;
  geom_type : geometry -> string;
  buffer0 : geometry -> geometry;           (* geom.buffer(0) *)
  wkt : geometry -> string                  (* geom.wkt.encode("utf8") *) }.

Module Contours.
Section WithShapely.

Context {shapely : Shapely}.

(** What the generator produces, in the order of production: the pairs it
    yields and the records it logs. *)
Inductive item : Type :=
| Yield (name : string) (data : string)
| LogWrongType (name : string) (type : string)    (* logging.error *)
| LogInvalid (g : geometry)                       (* logging.error *)
| LogLost (name : string) (warped : geometry).    (* logging.warning *)

(** [zf.read(name)]: of several members with one name the last counts. *)
Fixpoint zip_read (archive : list (string * string)) (name : string) : string :=
  match archive with
  | [] => ""
  | (n, data) :: archive' =>
      if String.eqb n name && negb (existsb (fun e => String.eqb (fst e) name) archive')
      then data
      else zip_read archive' name
  end.

Definition namelist (archive : list (string * string)) : list string :=
  map fst archive.

(** One pass of the loop body for a member whose name ends in ".wkt":
    the items it produces, or the exception that ends the generator. *)
Definition contour (transformer : geometry -> outcome geometry)
    (archive : list (string * string)) (name : string) : outcome (list item) :=
  match wkt_loads (zip_read archive name) with
  | Raise e => Raise e
  | Return warped_geom =>
      if is_empty warped_geom then Raise (OtherError "AssertionError")
      else
        match transformer warped_geom with
        | Raise e => Raise e
        | Return geom =>
            let wrong_type :=
              if String.eqb (geom_type geom) "Polygon"
                 || String.eqb (geom_type geom) "LineString"
              then [] else [LogWrongType name (geom_type geom)] in
            let repaired := if is_valid geom then geom else buffer0 geom in
            let invalid :=
              if is_valid geom then []
              else if is_valid repaired then [] else [LogInvalid repaired] in
            Return (wrong_type ++ invalid ++
                    (if is_empty repaired then [LogLost name warped_geom]
                     else [Yield name (wkt repaired)]))
        end
  end.

(** The loop over the given names; the generator ends with the first
    exception, after the items produced until then. *)
Fixpoint contours_of (transformer : geometry -> outcome geometry)
    (archive : list (string * string)) (names : list string)
    : list item * outcome unit :=
  match names with
  | [] => ([], Return tt)
  | name :: names' =>
      if PyStr.endswith name ".wkt" then
        match contour transformer archive name with
        | Raise e => ([], Raise e)
        | Return items =>
            let (rest, r) := contours_of transformer archive names' in
            (items ++ rest, r)
        end
      else contours_of transformer archive names'
  end.

Definition dewarped_contours (transformer : geometry -> outcome geometry)
    (archive : list (string * string)) : list item * outcome unit :=
  contours_of transformer archive (namelist archive).

(** The names and the payloads of the pairs yielded. *)
Definition yields (items : list item) : list (string * string) :=
  flat_map (fun i => match i with Yield n d => [(n, d)] | _ => [] end) items.

Definition losses (items : list item) : list string :=
  flat_map (fun i => match i with LogLost n _ => [n] | _ => [] end) items.

End WithShapely.
End Contours.

(** ** _find_image_path *)

Module Page.

Record Path : Type := mkPath {
  parent : string;
  name : string }.

(** What the function asks the file system. *)
Record FileSystem : Type := mkFileSystem {
  path_exists : Path -> bool;                     (* path.exists() *)
  glob_stem : Path -> list Path;                  (* path.parent.glob(path.stem + ".*") *)
  imghdr_what : Path -> outcome (option string)   (* imghdr.what(candidate) *) }.

(** The loop that fills [candidates]; a member named "*.jp2" is taken
    without a look at its content. *)
Fixpoint image_candidates (fs : FileSystem) (found : list Path)
    : outcome (list Path) :=
  match found with
  | [] => Return []
  | candidate :: found' =>
      if PyStr.endswith (name candidate) ".jp2" then
        match image_candidates fs found' with
        | Return candidates => Return (candidate :: candidates)
        | Raise e => Raise e
        end
      else
        match imghdr_what fs candidate with
        | Raise e => Raise e
        | Return what =>
            match image_candidates fs found' with
            | Return candidates =>
                Return (match what with
                        | Some _ => candidate :: candidates
                        | None => candidates
                        end)
            | Raise e => Raise e
            end
        end
  end.

Definition _find_image_path (fs : FileSystem) (path : Path) : outcome Path :=
  if path_exists fs path then Return path
  else
    match image_candidates fs (glob_stem fs path) with
    | Raise e => Raise e
    | Return candidates =>
        match candidates with
        | [candidate] => Return candidate
        | _ => Raise FileNotFoundError
        end
    end.

(** The test of the loop, for a file system that answers every question. *)
Definition is_image (fs : FileSystem) (candidate : Path) : bool :=
  PyStr.endswith (name candidate) ".jp2"
  || match imghdr_what fs candidate with
     | Return (Some _) => true
     | _ => false
     end.

End Page.

(** ** Annotations.create_multi_class_contours *)

Module Annotations.
Section WithShapes.

(** The prediction classes, with the equality of dictionary keys, and the
    two kinds of shapes with their affine transformations. *)
Variable class : Type.
Variable class_eqb : class -> class -> bool.
Variable base_geometry : Type.
Variable other_shape : Type.
Variable affine_transform : base_geometry -> base_geometry.   (* shapely.affinity.affine_transform(shape, matrix) *)
Variable shape_affine_transform : other_shape -> other_shape. (* shape.affine_transform(matrix) *)

Inductive shape : Type :=
| BaseGeometry (g : base_geometry)
| OtherShape (o : other_shape).

Definition transformed (s : shape) : shape :=
  match s with
  | BaseGeometry g => BaseGeometry (affine_transform g)
  | OtherShape o => OtherShape (shape_affine_transform o)
  end.

(** [results[prediction_class].append(t_shape)] on a
    [collections.defaultdict(list)], kept in insertion order. *)
Fixpoint append_to (results : list (class * list shape)) (k : class) (t : shape)
    : list (class * list shape) :=
  match results with
  | [] => [(k, [t])]
  | (k', shapes) :: results' =>
      if class_eqb k' k then (k', shapes ++ [t]) :: results'
      else (k', shapes) :: append_to results' k t
  end.

Definition add_shapes (results : list (class * list shape)) (k : class)
    (shapes : list shape) : list (class * list shape) :=
  fold_left (fun acc s => append_to acc k (transformed s)) shapes results.

(** The two loops over [data.items()], where [data] is [c(labels)]. *)
Definition create_multi_class_contours (data : list (class * list shape))
    : list (class * list shape) :=
  fold_left (fun acc entry => add_shapes acc (fst entry) (snd entry)) data [].

End WithShapes.
End Annotations.

(** ** DatabaseMutex: construction and pickling *)

Module MutexObject.

(** A value of Python as far as the object holds one. *)
Inductive value : Type :=
| VStr (s : string)
| VInt (z : Z).

Record Column : Type := mkColumn {
  column_name : string;
  column_type : string;
  nullable : bool }.

Section WithEngine.

(** [sqlalchemy.create_engine(uri, isolation_level="SERIALIZABLE",
    poolclass=NullPool, connect_args={"timeout": timeout})] with the two
    listeners attached: it opens no connection, and is given from outside
    as a function of the two arguments that vary. *)
Variable Engine : Type.
Variable create_engine : value -> value -> outcome Engine.

Record Table : Type := mkTable {
  table_name : string;
  columns : list Column;
  primary_key : list string;
  primary_key_name : string;
  bound_to : Engine }.

Record Object : Type := mkObject {
  _db_uri : value;
  _timeout : value;
  _engine : option Engine;
  _metadata : option Engine;       (* sqlalchemy.MetaData(self._engine) *)
  _mutex_table : option Table }.

Definition _connect (db_uri timeout : value) : outcome Object :=
  match create_engine db_uri timeout with
  | Raise e => Raise e
  | Return engine =>
      Return (mkObject db_uri timeout (Some engine) (Some engine)
                (Some (mkTable "mutex"
                         [mkColumn "path" "Text" false;
                          mkColumn "processor" "Text" false;
                          mkColumn "pid" "BigInteger" false;
                          mkColumn "time" "DateTime" false]
                         ["path"; "processor"] "mutex_pk" engine)))
  end.

(** [__init__(path, timeout)], where [path] stands for [str(Path(path))]
    and [create_all] for [self._metadata.create_all()]; the result is the
    object together with what was logged. *)
Definition __init__ (path : string) (timeout : value) (create_all : M unit)
    : M (Object * list string) :=
  match _connect (VStr ("sqlite:///" ++ path)) timeout with
  | Raise e => raise e
  | Return self =>
      try_except
        (create_all ;; ret (self, []))
        (fun e => match e with
                  | OperationalError => Some (ret (self, ["Metadata creation failed."]))
                  | _ => None
                  end)
  end.

Definition __getstate__ (self : Object) : list (string * value) :=
  [("db_uri", _db_uri self); ("timeout", _timeout self)].

(** [newstate[key]] *)
Definition getitem (newstate : list (string * value)) (key : string) : outcome value :=
  match find (fun entry => String.eqb (fst entry) key) newstate with
  | Some entry => Return (snd entry)
  | None => Raise (OtherError "KeyError")
  end.

Definition __setstate__ (newstate : list (string * value)) : outcome Object :=
  match getitem newstate "db_uri" with
  | Raise e => Raise e
  | Return db_uri =>
      match getitem newstate "timeout" with
      | Raise e => Raise e
      | Return timeout => _connect db_uri timeout
      end
  end.

End WithEngine.
End MutexObject.

(** ** Vocabulary for the strings and the contours *)

Definition all_space (s : string) : bool :=
  forallb PyStr.is_space (list_ascii_of_string s).

Definition has_char (c : Ascii.ascii) (s : string) : Prop :=
  In c (list_ascii_of_string s).

(** [l1] is [l2] with some elements left out. *)
Inductive Subseq {X : Type} : list X -> list X -> Prop :=
| Subseq_nil : Subseq [] []
| Subseq_skip x l1 l2 : Subseq l1 l2 -> Subseq l1 (x :: l2)
| Subseq_take x l1 l2 : Subseq l1 l2 -> Subseq (x :: l1) (x :: l2).

(** A geometry library for concrete runs: a geometry is its own text,
    always valid, and empty when the text says so. *)
Definition text_geometry : Shapely :=
  mkShapely (fun data => Return data)
            (fun g => String.eqb g "GEOMETRYCOLLECTION EMPTY")
            (fun _ => true) (fun g => g) (fun g => g) (fun g => g).

(** A geometry library for concrete runs that has an invalid geometry,
    which [buffer(0)] does not repair. *)
Definition brittle_geometry : Shapely :=
  mkShapely (fun data => Return data)
            (fun g => String.eqb g "GEOMETRYCOLLECTION EMPTY")
            (fun g => negb (String.eqb g "BOWTIE"))
            (fun g => g) (fun g => g) (fun g => g).

(** A directory for concrete runs: page.jpg is missing, page.jp2 and
    page.txt are there, and only files named "*.png" look like images. *)
Definition sample_directory : Page.FileSystem :=
  Page.mkFileSystem
    (fun _ => false)
    (fun p => [Page.mkPath (Page.parent p) "page.jp2";
               Page.mkPath (Page.parent p) "page.txt"])
    (fun c => Return (if PyStr.endswith (Page.name c) ".png"
                      then Some "png" else None)).

(** * Properties *)

(** ** The retry loop *)

(** The delays slept so far, oldest first. *)
Definition sleeps (s : State) : list Q :=
  flat_map (fun e => match e with EvSleep d => [d] | _ => [] end) (trace s).

(** The state after [k] failed attempts that started with the counter at
    [backoff], each followed by its sleep. *)
Fixpoint failed_attempts {A} (operation : M A) (backoff : Z) (k : nat)
    (env : Env) (s : State) : State :=
  match k with
  | O => s
  | S k' =>
      failed_attempts operation (backoff + 1) k' env
        (log (EvSleep (backoff_delay backoff)) (snd (operation env s)))
  end.

(** The store answers one of the next ten statements. *)
Definition responsive (env : Env) (s : State) : bool :=
  existsb (fun k => negb (busy env (accesses s + k)%nat)) (seq 0 10).

(** The rows an attempt of [try_lock] builds when the clock has been read
    [reads] times before. *)
Fixpoint rows_of (env : Env) (processor : string) (paths : list string)
    (reads : nat) : list Row :=
  match paths with
  | [] => []
  | p :: paths' =>
      mkRow p processor (getpid env) (now env reads)
      :: rows_of env processor paths' (S reads)
  end.

(** No key (path, processor) of the request is in the table, and no path
    is requested twice. *)
Fixpoint claimable (processor : string) (paths : list string) (t : list Row) : bool :=
  match paths with
  | [] => true
  | p :: paths' =>
      negb (has_key (p, processor) t) && negb (mem_string p paths')
      && claimable processor paths' t
  end.

(** The rows [unlock processor paths] deletes when called by process [pid]. *)
Definition released (processor : string) (paths : list string) (pid : Z)
    (r : Row) : bool :=
  String.eqb (row_processor r) processor && mem_string (row_path r) paths
  && (row_pid r =? pid).

Definition read_clock (n : nat) (s : State) : State :=
  mkState (table s) (n + clock_reads s) (accesses s) (connections s) (held s) (trace s).

(** The state an attempt leaves, the table apart: it read the clock
    [reads] times, sent the statement [st] and closed its connection. *)
Definition after_statement (st : stmt) (reads : nat) (s : State) : State :=
  mkState (table s) (reads + clock_reads s) (S (accesses s)) (connections s)
          (held s) (trace s ++ [EvExecute st]).

(** The threshold of [clear_locks age], for an age other than 0, when the
    clock reads [t]: the instant [age] seconds before [t], if it can be
    computed. *)
Definition sweep_threshold (age : Z) (t : Z) : option Z :=
  match timedelta age with
  | Return delta =>
      match datetime_sub t delta with
      | Return threshold => Some threshold
      | Raise _ => None
      end
  | Raise _ => None
  end.

(** The store answers the next [n] statements. *)
Definition answers_next (env : Env) (s : State) (n : nat) : Prop :=
  forall k, (k < n)%nat -> busy env (accesses s + k)%nat = false.

(** The outcome of a [with] statement whose context manager did not
    interfere with the outcome [o] of the body. *)
Definition returned {B} (o : outcome B) : outcome (option B) :=
  match o with
  | Return b => Return (Some b)
  | Raise e => Raise e
  end.

(** The value a context manager hands to the body, if it hands one. *)
Definition yielded {Y K} (entered : outcome (Y * K)) : option Y :=
  match entered with
  | Return (y, _) => Some y
  | Raise _ => None
  end.

Definition chunked_locking_error : exn :=
  RuntimeError "FileMutex does not support chunked locking".

(** Fixtures for concrete runs: a store that is busy for ever, one that is
    never busy, and a process that has done nothing yet. *)
Definition always_busy : Env :=
  mkEnv 4242 (fun k => Z.of_nat k) (fun _ => true) (fun _ => Return tt).

Definition never_busy : Env :=
  mkEnv 4242 (fun k => Z.of_nat k) (fun _ => false) (fun _ => Return tt).

Definition idle : State := mkState [] 0 0 0 [] [].

Definition foreign_row : Row := mkRow "doc/42" "stage_x" 17 0.

(** The time slept in all. *)
Definition total_sleep (delays : list Q) : Q := fold_right Qplus 0%Q delays.

(** The first [k] delays of the schedule of [run_db_operation]. *)
Definition backoff_schedule (k : nat) : list Q :=
  map (fun i => backoff_delay (Z.of_nat i)) (seq 0 k).

(** A store that answers every statement. *)
Definition quiet (env : Env) : Prop := forall k, busy env k = false.

Lemma run_db_operation_loop_eq {A} (operation : M A) backoff env s :
  run_db_operation_loop operation backoff env s =
  match operation env s with
  | (Return a, s1) => (Return a, s1)
  | (Raise OperationalError, s1) =>
      if backoff >? 8 then (Raise OperationalError, s1)
      else run_db_operation_loop operation (backoff + 1) env
             (log (EvSleep (backoff_delay backoff)) s1)
  | (Raise e, s1) => (Raise e, s1)
  end.
Proof.
  simp run_db_operation_loop.
  destruct (operation env s) as [[a | e] s1]; simpl; [reflexivity |].
  destruct e; simpl; try reflexivity.
  destruct (Z_gt_dec backoff 8) as [Hgt | Hle]; simpl.
  - apply Z.gtb_gt in Hgt. now rewrite Hgt.
  - destruct (backoff >? 8) eqn:E; [apply Z.gtb_gt in E; contradiction | reflexivity].
Qed.

Lemma run_db_operation_loop_done {A} (operation : M A) backoff env s :
  fst (operation env s) <> Raise OperationalError ->
  run_db_operation_loop operation backoff env s = operation env s.
Proof.
  intros H. rewrite run_db_operation_loop_eq.
  destruct (operation env s) as [[a | e] s1]; [reflexivity |].
  destruct e; simpl in *; congruence.
Qed.

Lemma run_db_operation_loop_retry {A} (operation : M A) backoff env s s1 :
  operation env s = (Raise OperationalError, s1) ->
  backoff <= 8 ->
  run_db_operation_loop operation backoff env s =
  run_db_operation_loop operation (backoff + 1) env
    (log (EvSleep (backoff_delay backoff)) s1).
Proof.
  intros H Hb. rewrite run_db_operation_loop_eq, H.
  destruct (backoff >? 8) eqn:E; [apply Z.gtb_gt in E; lia | reflexivity].
Qed.

Lemma run_db_operation_loop_give_up {A} (operation : M A) backoff env s s1 :
  operation env s = (Raise OperationalError, s1) ->
  8 < backoff ->
  run_db_operation_loop operation backoff env s = (Raise OperationalError, s1).
Proof.
  intros H Hb. rewrite run_db_operation_loop_eq, H.
  destruct (backoff >? 8) eqn:E; [reflexivity |].
  rewrite Z.gtb_ltb, Z.ltb_ge in E; lia.
Qed.

Section RetryLoopRule.

Variable A : Type.
Variable operation : M A.
Variable env : Env.

(** [Inv j s]: [s] is a state in which the attempt after [j] failures
    starts. [Post r s]: [run_db_operation] may end with [r] in [s]. *)
Variable Inv : nat -> State -> Prop.
Variable Post : outcome A -> State -> Prop.

Hypothesis attempt :
  forall j s, (j <= 9)%nat -> Inv j s ->
    match operation env s with
    | (Raise OperationalError, s1) =>
        if (j <? 9)%nat
        then Inv (S j) (log (EvSleep (backoff_delay (Z.of_nat j))) s1)
        else Post (Raise OperationalError) s1
    | (r, s1) => Post r s1
    end.

Lemma run_db_operation_loop_rule :
  forall n j s, (j + n = 9)%nat -> Inv j s ->
    Post (fst (run_db_operation_loop operation (Z.of_nat j) env s))
         (snd (run_db_operation_loop operation (Z.of_nat j) env s)).
Proof.
  induction n as [| n IH]; intros j s Hj HI.
  - assert (j = 9%nat) by lia. subst j.
    pose proof (attempt (le_n 9) HI) as Hstep.
    destruct (operation env s) as [[a | e] s1] eqn:E.
    + rewrite run_db_operation_loop_done by (rewrite E; discriminate).
      rewrite E. exact Hstep.
    + destruct e;
        try (rewrite run_db_operation_loop_done by (rewrite E; discriminate);
             rewrite E; exact Hstep).
      rewrite (run_db_operation_loop_give_up _ _ _ E) by lia.
      exact Hstep.
  - assert (Hle : (j <= 9)%nat) by lia.
    pose proof (attempt Hle HI) as Hstep.
    destruct (operation env s) as [[a | e] s1] eqn:E.
    + rewrite run_db_operation_loop_done by (rewrite E; discriminate).
      rewrite E. exact Hstep.
    + destruct e;
        try (rewrite run_db_operation_loop_done by (rewrite E; discriminate);
             rewrite E; exact Hstep).
      rewrite (run_db_operation_loop_retry _ _ _ E) by lia.
      replace (Z.of_nat j + 1) with (Z.of_nat (S j)) by lia.
      assert (Hlt : (j <? 9)%nat = true) by (apply Nat.ltb_lt; lia).
      rewrite Hlt in Hstep.
      apply IH; [lia | exact Hstep].
Qed.

Lemma run_db_operation_rule s :
  Inv 0%nat s ->
  Post (fst (run_db_operation operation env s))
       (snd (run_db_operation operation env s)).
Proof.
  intros HI. unfold run_db_operation.
  exact (@run_db_operation_loop_rule 9 0 s eq_refl HI).
Qed.

End RetryLoopRule.

Lemma sleeps_log_sleep d s : sleeps (log (EvSleep d) s) = sleeps s ++ [d].
Proof. unfold sleeps, log; simpl. now rewrite flat_map_app. Qed.

Lemma accesses_log e s : accesses (log e s) = accesses s.
Proof. reflexivity. Qed.

Lemma table_log e s : table (log e s) = table s.
Proof. reflexivity. Qed.

Lemma failed_attempts_last {A} (operation : M A) env k :
  forall backoff s,
    failed_attempts operation backoff (S k) env s =
    log (EvSleep (backoff_delay (backoff + Z.of_nat k)))
        (snd (operation env (failed_attempts operation backoff k env s))).
Proof.
  induction k as [| k IH]; intros backoff s.
  - simpl. now rewrite Z.add_0_r.
  - change (failed_attempts operation backoff (S (S k)) env s)
      with (failed_attempts operation (backoff + 1) (S k) env
              (log (EvSleep (backoff_delay backoff)) (snd (operation env s)))).
    rewrite IH. simpl failed_attempts.
    replace (backoff + 1 + Z.of_nat k) with (backoff + Z.of_nat (S k)) by lia.
    reflexivity.
Qed.

Lemma failed_attempts_accesses {A} (operation : M A) env k :
  (forall s', accesses (snd (operation env s')) = S (accesses s')) ->
  forall backoff s,
    accesses (failed_attempts operation backoff k env s) = (accesses s + k)%nat.
Proof.
  intros Hacc. induction k as [| k IH]; intros backoff s; simpl.
  - lia.
  - rewrite IH, accesses_log, Hacc. lia.
Qed.

Lemma failed_attempts_sleeps {A} (operation : M A) env k :
  (forall s', sleeps (snd (operation env s')) = sleeps s') ->
  forall backoff s,
    sleeps (failed_attempts operation backoff k env s) =
    sleeps s ++ map (fun i => backoff_delay (backoff + Z.of_nat i)) (seq 0 k).
Proof.
  intros Hsl. induction k as [| k IH]; intros backoff s.
  - simpl. now rewrite app_nil_r.
  - cbn [failed_attempts]. rewrite IH, sleeps_log_sleep, Hsl.
    rewrite <- app_assoc. f_equal.
    cbn [seq map app]. rewrite Z.add_0_r. f_equal.
    rewrite <- seq_shift, map_map.
    apply map_ext. intros i. f_equal. lia.
Qed.

Lemma backoff_delay_double k :
  0 <= k -> (backoff_delay (k + 1) == 2 * backoff_delay k)%Q.
Proof.
  intros Hk. unfold backoff_delay.
  rewrite Z.pow_add_r by lia. rewrite Z.pow_1_r.
  rewrite inject_Z_mult. ring.
Qed.

Lemma backoff_delay_nonneg k : (0 <= backoff_delay k)%Q.
Proof.
  unfold backoff_delay. apply Qmult_le_0_compat; [discriminate |].
  change 0%Q with (inject_Z 0). rewrite <- Zle_Qle.
  apply Z.pow_nonneg; lia.
Qed.

Lemma backoff_delay_mono k :
  0 <= k -> (backoff_delay k <= backoff_delay (k + 1))%Q.
Proof.
  intros Hk. rewrite backoff_delay_double by exact Hk.
  pose proof (backoff_delay_nonneg k) as H0.
  rewrite <- (Qplus_0_l (backoff_delay k)) at 1.
  setoid_replace (2 * backoff_delay k)%Q
    with (backoff_delay k + backoff_delay k)%Q by ring.
  apply Qplus_le_l. exact H0.
Qed.

Lemma sleeps_log_execute st s : sleeps (log (EvExecute st) s) = sleeps s.
Proof. unfold sleeps, log; simpl. rewrite flat_map_app. apply app_nil_r. Qed.

Lemma insert_one_frame r env s :
  clock_reads (snd (insert_one r env s)) = clock_reads s /\
  connections (snd (insert_one r env s)) = connections s /\
  held (snd (insert_one r env s)) = held s /\
  trace (snd (insert_one r env s)) = trace s.
Proof.
  unfold insert_one.
  destruct (busy env (accesses s)); [repeat split |].
  destruct (has_key (row_key r) (table s)); repeat split.
Qed.

Lemma executemany_frame rows env : forall s,
  clock_reads (snd (executemany rows env s)) = clock_reads s /\
  connections (snd (executemany rows env s)) = connections s /\
  held (snd (executemany rows env s)) = held s /\
  trace (snd (executemany rows env s)) = trace s.
Proof.
  induction rows as [| r rows IH]; intros s; simpl; [repeat split |].
  unfold bind. pose proof (insert_one_frame r env s) as Hone.
  destruct (insert_one r env s) as [[[] | e] s1]; simpl in Hone; [| exact Hone].
  destruct (IH s1) as (H1 & H2 & H3 & H4). destruct Hone as (G1 & G2 & G3 & G4).
  repeat split; congruence.
Qed.

Lemma execute_frame st env s :
  clock_reads (snd (execute st env s)) = clock_reads s /\
  connections (snd (execute st env s)) = connections s /\
  held (snd (execute st env s)) = held s /\
  trace (snd (execute st env s)) = trace s ++ [EvExecute st].
Proof.
  unfold execute. destruct st as [rows | where_].
  - destruct rows as [| r rows].
    + unfold insert_default_values. simpl.
      destruct (busy env (accesses s)); repeat split.
    + exact (executemany_frame (r :: rows) env (log (EvExecute (Insert (r :: rows))) s)).
  - simpl. destruct (busy env (accesses s)); repeat split.
Qed.

Lemma sleeps_execute st env s : sleeps (snd (execute st env s)) = sleeps s.
Proof.
  destruct (execute_frame st env s) as (_ & _ & _ & Htrace).
  unfold sleeps. rewrite Htrace, flat_map_app. simpl. apply app_nil_r.
Qed.

Lemma accesses_execute where_ env s :
  accesses (snd (execute (Delete where_) env s)) = S (accesses s).
Proof.
  unfold execute. simpl. destruct (busy env (accesses s)); reflexivity.
Qed.

(** C2, as stated, fails: against a store that is busy for ever the helper
    sends the statement ten times, not nine, and sleeps nine times. *)
Lemma run_db_operation_nine_attempts_counterexample :
  let r := run_db_operation (execute (Delete [])) always_busy idle in
  fst r = Raise OperationalError /\
  accesses (snd r) = 10%nat /\
  length (sleeps (snd r)) = 9%nat /\
  ~ accesses (snd r) = 9%nat.
Proof. vm_compute. repeat split; discriminate. Qed.

(** C2, amended: when every attempt raises the operational error,
    [run_db_operation] raises it after exactly ten attempts (the first call
    and nine retries); the sleep before the retry that follows failure
    number k (k = 0, ..., 8) lasts 0.1 * 2^k seconds, each delay being twice
    the one before and so not shorter. *)
Theorem run_db_operation_gives_up_after_ten_attempts
    (A : Type) (operation : M A) (env : Env) (s : State) :
  (forall s', fst (operation env s') = Raise OperationalError) ->
  (forall s', accesses (snd (operation env s')) = S (accesses s')) ->
  (forall s', sleeps (snd (operation env s')) = sleeps s') ->
  let r := run_db_operation operation env s in
  fst r = Raise OperationalError /\
  snd r = snd (operation env (failed_attempts operation 0 9 env s)) /\
  accesses (snd r) = (accesses s + 10)%nat /\
  sleeps (snd r) =
    sleeps s ++ map (fun k => backoff_delay (Z.of_nat k)) (seq 0 9) /\
  (forall k, 0 <= k < 8 ->
     (backoff_delay (k + 1) == 2 * backoff_delay k)%Q /\
     (backoff_delay k <= backoff_delay (k + 1))%Q).
Proof.
  intros Hfail Hacc Hsl r.
  assert (Hr : fst r = Raise OperationalError /\
               snd r = snd (operation env (failed_attempts operation 0 9 env s))).
  { subst r.
    apply (@run_db_operation_rule A operation env
             (fun j s' => s' = failed_attempts operation 0 j env s)
             (fun o s' => o = Raise OperationalError /\
                          s' = snd (operation env (failed_attempts operation 0 9 env s))));
      [| reflexivity].
    intros j s' Hj Hinv. subst s'.
    pose proof (Hfail (failed_attempts operation 0 j env s)) as Hf.
    destruct (operation env (failed_attempts operation 0 j env s)) as [o s1] eqn:E.
    simpl in Hf. subst o.
    destruct (j <? 9)%nat eqn:Ej.
    - rewrite failed_attempts_last, E. reflexivity.
    - apply Nat.ltb_ge in Ej. assert (j = 9%nat) by lia. subst j.
      rewrite E. split; reflexivity. }
  destruct Hr as [Hout Hst].
  split; [exact Hout |]. split; [exact Hst |].
  split; [| split].
  - rewrite Hst, Hacc, failed_attempts_accesses by exact Hacc. lia.
  - rewrite Hst, Hsl, failed_attempts_sleeps by exact Hsl. reflexivity.
  - intros k Hk. split.
    + apply backoff_delay_double; lia.
    + apply backoff_delay_mono; lia.
Qed.

Lemma run_db_operation_gives_up_after_ten_attempts_witness :
  let r := run_db_operation (execute (Delete [])) always_busy idle in
  fst r = Raise OperationalError /\
  snd r = snd (execute (Delete []) always_busy
                 (failed_attempts (execute (Delete [])) 0 9 always_busy idle)) /\
  accesses (snd r) = (accesses idle + 10)%nat /\
  sleeps (snd r) =
    sleeps idle ++ map (fun k => backoff_delay (Z.of_nat k)) (seq 0 9) /\
  (forall k, 0 <= k < 8 ->
     (backoff_delay (k + 1) == 2 * backoff_delay k)%Q /\
     (backoff_delay k <= backoff_delay (k + 1))%Q).
Proof.
  apply (@run_db_operation_gives_up_after_ten_attempts
           unit (execute (Delete [])) always_busy idle).
  - intros s'. reflexivity.
  - intros s'. apply accesses_execute.
  - intros s'. apply sleeps_execute.
Defined.

(** ** The lock table *)

Lemma key_eqb_eq k1 k2 : key_eqb k1 k2 = true <-> k1 = k2.
Proof.
  destruct k1 as [a1 b1], k2 as [a2 b2]. unfold key_eqb; simpl.
  rewrite andb_true_iff, !String.eqb_eq. split.
  - intros [-> ->]. reflexivity.
  - intros H. inversion H. auto.
Qed.

Lemma has_key_In k t : has_key k t = true <-> In k (map row_key t).
Proof.
  unfold has_key. rewrite existsb_exists, in_map_iff. split.
  - intros [r [Hr Hk]]. apply key_eqb_eq in Hk. eauto.
  - intros [r [Hk Hr]]. exists r. split; [exact Hr | now apply key_eqb_eq].
Qed.

Lemma has_key_app k t1 t2 : has_key k (t1 ++ t2) = has_key k t1 || has_key k t2.
Proof. unfold has_key. apply existsb_app. Qed.

Lemma mem_string_In x l : mem_string x l = true <-> In x l.
Proof.
  unfold mem_string. rewrite existsb_exists. split.
  - intros [y [Hy Hxy]]. apply String.eqb_eq in Hxy. now subst.
  - intros H. exists x. split; [exact H | apply String.eqb_refl].
Qed.

Lemma insert_rows_all rows : forall t,
  snd (insert_rows rows t) = true -> fst (insert_rows rows t) = t ++ rows.
Proof.
  induction rows as [| r rows IH]; intros t H; simpl in *.
  - now rewrite app_nil_r.
  - destruct (has_key (row_key r) t); [discriminate |].
    rewrite IH by exact H. now rewrite <- app_assoc.
Qed.

Lemma insert_rows_stop rows : forall t,
  snd (insert_rows rows t) = false ->
  exists added r rest,
    rows = added ++ r :: rest /\
    fst (insert_rows rows t) = t ++ added /\
    has_key (row_key r) (t ++ added) = true /\
    Forall (fun a => has_key (row_key a) t = false) added.
Proof.
  induction rows as [| r rows IH]; intros t H; simpl in *; [discriminate |].
  destruct (has_key (row_key r) t) eqn:E.
  - exists [], r, rows. simpl. rewrite app_nil_r. auto.
  - destruct (IH _ H) as (added & r' & rest & -> & Hfst & Hkey & Hfresh).
    exists (r :: added), r', rest. simpl.
    rewrite Hfst, <- !app_assoc in *. simpl in *.
    repeat split; [exact Hkey |].
    constructor; [exact E |].
    apply Forall_impl with (2 := Hfresh). intros a Ha.
    rewrite has_key_app in Ha. now apply orb_false_elim in Ha.
Qed.

Lemma claimable_snoc processor paths : forall t r,
  row_processor r = processor ->
  claimable processor paths (t ++ [r]) =
  negb (mem_string (row_path r) paths) && claimable processor paths t.
Proof.
  induction paths as [| q paths IH]; intros t r Hr; simpl.
  - reflexivity.
  - rewrite (IH t r Hr), has_key_app. unfold has_key at 2; simpl.
    unfold key_eqb, row_key; simpl. rewrite Hr, String.eqb_refl.
    rewrite andb_true_r, orb_false_r.
    destruct (has_key (q, processor) t); simpl.
    + now rewrite andb_false_r.
    + destruct (String.eqb (row_path r) q); simpl; [reflexivity |].
      destruct (mem_string q paths), (mem_string (row_path r) paths); reflexivity.
Qed.

Lemma insert_rows_claimable env processor paths : forall reads t,
  snd (insert_rows (rows_of env processor paths reads) t) =
  claimable processor paths t.
Proof.
  induction paths as [| p paths IH]; intros reads t; simpl; [reflexivity |].
  unfold row_key at 1; simpl.
  destruct (has_key (p, processor) t); simpl; [reflexivity |].
  rewrite IH, claimable_snoc by reflexivity. reflexivity.
Qed.

Lemma claimable_spec processor paths t :
  claimable processor paths t = true <->
  NoDup paths /\ forall p, In p paths -> ~ In (p, processor) (map row_key t).
Proof.
  induction paths as [| q paths IH]; simpl.
  - split; [intros _; split; [constructor | intros p []] | reflexivity].
  - rewrite !andb_true_iff, !negb_true_iff, IH. split.
    + intros [[Hk Hm] [Hnd Hfree]]. split.
      * constructor; [| exact Hnd].
        intros Hin. apply mem_string_In in Hin. congruence.
      * intros p [<- | Hp]; [| now apply Hfree].
        intros Hin. apply has_key_In in Hin. congruence.
    + intros [Hnd Hfree]. inversion Hnd as [| ? ? Hq Hnd']; subst.
      repeat split.
      * destruct (has_key (q, processor) t) eqn:E; [| reflexivity].
        apply has_key_In in E. exfalso. apply (Hfree q); auto.
      * destruct (mem_string q paths) eqn:E; [| reflexivity].
        apply mem_string_In in E. contradiction.
      * exact Hnd'.
      * intros p Hp. apply Hfree. now right.
Qed.

Lemma rows_of_paths env processor paths : forall reads,
  map row_path (rows_of env processor paths reads) = paths.
Proof. induction paths as [| p paths IH]; intros reads; simpl; [| rewrite IH]; reflexivity. Qed.

Lemma rows_of_owner env processor paths : forall reads,
  Forall (fun r => row_processor r = processor /\ row_pid r = getpid env)
         (rows_of env processor paths reads).
Proof.
  induction paths as [| p paths IH]; intros reads; simpl; constructor; auto.
Qed.

Lemma rows_of_released env processor paths : forall reads paths',
  incl paths paths' ->
  forallb (released processor paths' (getpid env))
          (rows_of env processor paths reads) = true.
Proof.
  induction paths as [| p paths IH]; intros reads paths' Hincl; simpl.
  - reflexivity.
  - rewrite IH by (intros x Hx; apply Hincl; now right).
    unfold released; simpl.
    rewrite String.eqb_refl, Z.eqb_refl.
    assert (Hm : mem_string p paths' = true)
      by (apply mem_string_In, Hincl; now left).
    now rewrite Hm.
Qed.

(** ** One attempt of each store operation *)

Lemma lock_rows_run processor paths env : forall s,
  DatabaseMutex.lock_rows processor paths env s =
  (Return (rows_of env processor paths (clock_reads s)),
   read_clock (length paths) s).
Proof.
  unfold DatabaseMutex.lock_rows.
  induction paths as [| p paths IH]; intros s.
  - destruct s; reflexivity.
  - cbn [mapM rows_of length].
    unfold bind, os_getpid, datetime_now, ret in *. simpl.
    rewrite IH. unfold read_clock. simpl.
    do 2 f_equal. lia.
Qed.

(** What one attempt of [try_lock] is made of: the connection, the rows,
    the insert, the handler of the integrity error and the closing. *)
Lemma try_lock_perform_run processor paths env s :
  DatabaseMutex.try_lock_perform processor paths env s =
  let rows := rows_of env processor paths (clock_reads s) in
  let s0 := log (EvExecute (Insert rows))
              (read_clock (length paths) (set_connections (S (connections s)) s)) in
  let r := match rows with
           | [] => insert_default_values env s0
           | _ => executemany rows env s0
           end in
  (match fst r with
   | Return _ => Return true
   | Raise IntegrityError => Return false
   | Raise e => Raise e
   end,
   set_connections (pred (connections (snd r))) (snd r)).
Proof.
  unfold DatabaseMutex.try_lock_perform, bind, try_finally, try_except, connect.
  rewrite lock_rows_run. unfold execute, close, ret. cbv zeta.
  change (clock_reads (set_connections (S (connections s)) s)) with (clock_reads s).
  destruct (rows_of env processor paths (clock_reads s)) as [| r rows].
  - destruct (insert_default_values env _) as [[[] | e] s1]; simpl; [reflexivity |].
    destruct e; reflexivity.
  - destruct (executemany (r :: rows) env _) as [[[] | e] s1]; simpl; [reflexivity |].
    destruct e; reflexivity.
Qed.

Lemma insert_one_keys r env s :
  NoDup (map row_key (table s)) ->
  NoDup (map row_key (table (snd (insert_one r env s)))).
Proof.
  intros Hnd. unfold insert_one.
  destruct (busy env (accesses s)); [exact Hnd |].
  destruct (has_key (row_key r) (table s)) eqn:E; [exact Hnd |].
  simpl. rewrite map_app. simpl. apply NoDup_app; [exact Hnd | | ].
  - constructor; [intros [] | constructor].
  - intros k Hk [<- | []].
    apply has_key_In in Hk. congruence.
Qed.

Lemma executemany_keys rows env : forall s,
  NoDup (map row_key (table s)) ->
  NoDup (map row_key (table (snd (executemany rows env s)))).
Proof.
  induction rows as [| r rows IH]; intros s Hnd; simpl; [exact Hnd |].
  unfold bind. pose proof (insert_one_keys r env s Hnd) as Hone.
  destruct (insert_one r env s) as [[[] | e] s1]; simpl in Hone; [| exact Hone].
  now apply IH.
Qed.

(** In general an insert of several rows leaves a part of them: all of
    them when it returns, and the rows before the one at which it raised
    otherwise; it raises nothing but the two errors of the store. *)
Lemma executemany_cases rows env : forall s,
  exists i, (i <= length rows)%nat /\
    table (snd (executemany rows env s)) = table s ++ firstn i rows /\
    (accesses (snd (executemany rows env s)) <= accesses s + length rows)%nat /\
    match fst (executemany rows env s) with
    | Return _ => i = length rows /\ snd (insert_rows rows (table s)) = true
    | Raise e => (i < length rows)%nat /\ (e = OperationalError \/ e = IntegrityError)
    end.
Proof.
  induction rows as [| r rows IH]; intros s; simpl.
  - exists 0%nat. simpl. rewrite app_nil_r. repeat split; lia.
  - unfold bind, insert_one.
    destruct (busy env (accesses s)).
    { exists 0%nat. simpl. rewrite app_nil_r. repeat split; try lia. now left. }
    destruct (has_key (row_key r) (table s)).
    { exists 0%nat. simpl. rewrite app_nil_r. repeat split; try lia. now right. }
    destruct (IH (set_table (table s ++ [r]) (tick_access s))) as (i & Hi & Ht & Ha & Ho).
    exists (S i). simpl in *. split; [lia |]. split; [now rewrite Ht, <- app_assoc |].
    split; [lia |].
    destruct (fst (executemany rows env (set_table (table s ++ [r]) (tick_access s))));
      [destruct Ho; split; [lia | assumption] | destruct Ho; split; [lia | assumption]].
Qed.

Lemma executemany_quiet rows env : forall s,
  answers_next env s (length rows) ->
  fst (executemany rows env s) =
    (if snd (insert_rows rows (table s)) then Return tt else Raise IntegrityError) /\
  table (snd (executemany rows env s)) = fst (insert_rows rows (table s)) /\
  (accesses s < accesses (snd (executemany rows env s)) \/ rows = [])%nat.
Proof.
  induction rows as [| r rows IH]; intros s Hq; simpl; [repeat split; now right |].
  unfold bind, insert_one.
  assert (Hb : busy env (accesses s) = false).
  { pose proof (Hq 0%nat) as H. simpl in H. rewrite Nat.add_0_r in H. apply H. lia. }
  rewrite Hb.
  destruct (has_key (row_key r) (table s)); [repeat split; left; simpl; lia |].
  destruct (IH (set_table (table s ++ [r]) (tick_access s))) as (Ho & Ht & Ha).
  { intros k Hk. simpl. rewrite plus_n_Sm. apply Hq. simpl. lia. }
  simpl in *. split; [exact Ho |]. split; [exact Ht |].
  left. destruct Ha as [Ha | ->]; simpl; lia.
Qed.

(** One attempt of [try_lock], whatever the store answers. *)
Lemma try_lock_attempt processor paths env s :
  let rows := rows_of env processor paths (clock_reads s) in
  let r := DatabaseMutex.try_lock_perform processor paths env s in
  connections (snd r) = connections s /\
  held (snd r) = held s /\
  clock_reads (snd r) = (length paths + clock_reads s)%nat /\
  trace (snd r) = trace s ++ [EvExecute (Insert rows)] /\
  (NoDup (map row_key (table s)) -> NoDup (map row_key (table (snd r)))) /\
  (exists i, (i <= length rows)%nat /\ table (snd r) = table s ++ firstn i rows /\
     (fst r = Return true ->
        paths <> [] /\ i = length rows /\ claimable processor paths (table s) = true) /\
     (fst r = Raise OperationalError -> busy env (accesses s) = false -> (0 < i)%nat)) /\
  (forall e, fst r = Raise e -> e = OperationalError).
Proof.
  intros rows r. subst r. rewrite try_lock_perform_run. cbv zeta. fold rows.
  set (s0 := log (EvExecute (Insert rows))
               (read_clock (length paths) (set_connections (S (connections s)) s))).
  assert (Hrows : length rows = length paths).
  { unfold rows. rewrite <- (length_map row_path), rows_of_paths. reflexivity. }
  destruct rows as [| r0 rows'] eqn:Erows.
  - unfold insert_default_values. simpl.
    destruct (busy env (accesses s)) eqn:Eb; simpl.
    + repeat split; auto.
      * exists 0%nat. simpl. rewrite app_nil_r. repeat split; auto; discriminate.
      * intros e H. now inversion H.
    + repeat split; auto.
      * exists 0%nat. simpl. rewrite app_nil_r. repeat split; auto; discriminate.
      * intros e H. discriminate.
  - destruct (executemany_frame (r0 :: rows') env s0) as (F1 & F2 & F3 & F4).
    destruct (executemany_cases (r0 :: rows') env s0) as (i & Hi & Ht & Ha & Ho).
    pose proof (executemany_keys (r0 :: rows') env s0) as Hk.
    assert (Hfirst : fst (executemany (r0 :: rows') env s0) = Raise OperationalError ->
                     busy env (accesses s) = false -> (0 < i)%nat).
    { intros Hop Hb.
      destruct (Nat.eq_dec i 0) as [-> | Hne]; [| lia]. exfalso.
      simpl in Hop, Ht. unfold bind, insert_one in Hop, Ht.
      change (accesses s0) with (accesses s) in Hop, Ht. rewrite Hb in Hop, Ht.
      change (table s0) with (table s) in Hop, Ht.
      destruct (has_key (row_key r0) (table s)) eqn:Ek; [discriminate |].
      destruct (executemany_cases rows' env
                  (set_table (table s ++ [r0]) (tick_access s0)))
        as (j & _ & Htj & _). rewrite Htj in Ht. simpl in Ht.
      rewrite app_nil_r, <- app_assoc in Ht.
      apply (f_equal (@length Row)) in Ht. rewrite !length_app in Ht. simpl in Ht. lia. }
    change (table s0) with (table s) in Ht, Hk.
    change (clock_reads s0) with (length paths + clock_reads s)%nat in F1.
    change (connections s0) with (S (connections s)) in F2.
    change (held s0) with (held s) in F3.
    change (trace s0) with (trace s ++ [EvExecute (Insert (r0 :: rows'))]) in F4.
    destruct (executemany (r0 :: rows') env s0) as [o s1].
    cbn [fst snd] in *.
    split; [cbn; now rewrite F2 |].
    split; [exact F3 |].
    split; [exact F1 |].
    split; [exact F4 |].
    split; [exact Hk |].
    split.
    + exists i. split; [exact Hi |]. split; [exact Ht |]. split.
      * intros Htrue. destruct o as [[] | e].
        -- destruct Ho as [-> Hall]. split; [| split; [reflexivity |]].
           ++ intros ->. simpl in Hrows. discriminate.
           ++ rewrite <- Erows in Hall. unfold rows in Hall.
              now rewrite insert_rows_claimable in Hall.
        -- destruct e; discriminate.
      * intros Hop. apply Hfirst.
        destruct o as [[] | e]; [discriminate |]. destruct e; try discriminate.
        reflexivity.
    + intros e He. destruct o as [[] | e']; [discriminate |].
      destruct Ho as [_ [-> | ->]]; [now inversion He | discriminate].
Qed.

(** One attempt of [try_lock] when the store answers its inserts. *)
Lemma try_lock_attempt_quiet processor paths env s :
  answers_next env s (Nat.max 1 (length paths)) ->
  let rows := rows_of env processor paths (clock_reads s) in
  let r := DatabaseMutex.try_lock_perform processor paths env s in
  fst r = Return (match paths with
                  | [] => false
                  | _ => claimable processor paths (table s)
                  end) /\
  table (snd r) = fst (insert_rows rows (table s)) /\
  (accesses s < accesses (snd r) <= accesses s + Nat.max 1 (length paths))%nat.
Proof.
  intros Hq rows r. subst r. rewrite try_lock_perform_run. cbv zeta. fold rows.
  set (s0 := log (EvExecute (Insert rows))
               (read_clock (length paths) (set_connections (S (connections s)) s))).
  assert (Hrows : length rows = length paths).
  { unfold rows. rewrite <- (length_map row_path), rows_of_paths. reflexivity. }
  assert (Hclaim : snd (insert_rows rows (table s)) = claimable processor paths (table s))
    by apply insert_rows_claimable.
  destruct paths as [| p paths'].
  - simpl in rows. subst rows. unfold insert_default_values. simpl.
    pose proof (Hq 0%nat) as Hb. rewrite Nat.add_0_r in Hb.
    rewrite Hb by (simpl; lia). simpl. repeat split; lia.
  - destruct rows as [| r0 rows'] eqn:Erows; [simpl in Hrows; discriminate |].
    assert (Hq0 : answers_next env s0 (length (r0 :: rows'))).
    { intros k Hk. change (accesses s0) with (accesses s). apply Hq.
      rewrite Hrows in Hk. simpl in *. lia. }
    destruct (@executemany_quiet (r0 :: rows') env s0 Hq0) as (Ho & Ht & Ha).
    destruct (executemany_cases (r0 :: rows') env s0) as (i & _ & _ & Hacc & _).
    change (table s0) with (table s) in Ho, Ht.
    change (accesses s0) with (accesses s) in Ha, Hacc.
    destruct (executemany (r0 :: rows') env s0) as [o s1].
    cbn [fst snd] in *. rewrite Ho, Hclaim.
    split; [destruct (claimable processor (p :: paths') (table s)); reflexivity |].
    split; [exact Ht |].
    destruct Ha as [Ha | Ha]; [| discriminate].
    rewrite Hrows in Hacc. cbn [accesses set_connections]. simpl in Hacc |- *. lia.
Qed.

Lemma unlock_perform_run processor paths env s :
  DatabaseMutex.unlock_perform processor paths env s =
  let st := Delete [ProcessorEq processor; PathIn paths; PidEq (getpid env)] in
  let s' := after_statement st 0 s in
  if busy env (accesses s) then (Raise OperationalError, s')
  else (Return tt,
        set_table (filter (fun r => negb (released processor paths (getpid env) r))
                          (table s)) s').
Proof.
  unfold DatabaseMutex.unlock_perform, bind, try_finally, connect, os_getpid,
    execute, close, after_statement.
  destruct s as [t reads acc conns h tr]; simpl.
  destruct (busy env acc); [reflexivity |].
  unfold delete_where, set_table, set_connections; simpl. do 2 f_equal.
  apply filter_ext. intros r. unfold matches, released; simpl.
  now rewrite andb_true_r, andb_assoc.
Qed.

Lemma timedelta_raises seconds e : timedelta seconds = Raise e -> e = overflow_error.
Proof.
  unfold timedelta. destruct (Z.abs (seconds / 86400) <=? 999999999); [discriminate |].
  intros H. now inversion H.
Qed.

Lemma datetime_sub_raises t delta e :
  datetime_sub t delta = Raise e -> e = overflow_error.
Proof.
  unfold datetime_sub.
  destruct ((0 <=? t - delta) && (t - delta <=? datetime_max)); [discriminate |].
  intros H. now inversion H.
Qed.

Lemma clear_locks_perform_run age env s :
  DatabaseMutex.clear_locks_perform age env s =
  if age =? 0 then
    let s' := after_statement (Delete []) 0 s in
    if busy env (accesses s) then (Raise OperationalError, s')
    else (Return tt, set_table (delete_where [] (table s)) s')
  else
    match sweep_threshold age (now env (clock_reads s)) with
    | None => (Raise overflow_error, read_clock 1 s)
    | Some threshold =>
        let s' := after_statement (Delete [TimeLt threshold]) 1 s in
        if busy env (accesses s) then (Raise OperationalError, s')
        else (Return tt, set_table (delete_where [TimeLt threshold] (table s)) s')
    end.
Proof.
  unfold DatabaseMutex.clear_locks_perform, bind, try_finally, connect,
    datetime_now, execute, close, after_statement, sweep_threshold, lift, ret, read_clock.
  destruct s as [t reads acc conns h tr]; simpl.
  destruct (age =? 0); simpl; [destruct (busy env acc); reflexivity |].
  destruct (timedelta age) as [delta | e] eqn:Ed; simpl.
  - destruct (datetime_sub (now env reads) delta) as [threshold | e] eqn:Es; simpl.
    + destruct (busy env acc); reflexivity.
    + now rewrite (datetime_sub_raises _ _ Es).
  - now rewrite (timedelta_raises _ Ed).
Qed.

(** ** Store operations under the retry loop *)

Lemma responsive_spec env s :
  responsive env s = true <->
  exists k, (k < 10)%nat /\ busy env (accesses s + k)%nat = false.
Proof.
  unfold responsive. rewrite existsb_exists. split.
  - intros [k [Hk Hb]]. apply in_seq in Hk. apply negb_true_iff in Hb.
    exists k. split; [lia | exact Hb].
  - intros [k [Hk Hb]]. exists k. split; [apply in_seq; lia |].
    now apply negb_true_iff.
Qed.

Section StoreOperation.

Variable A : Type.
Variable operation : M A.
Variable env : Env.

(** An attempt that raises the operational error has met a busy store
    with its one statement and has left the table alone. *)
Hypothesis attempt_transient :
  forall s, fst (operation env s) = Raise OperationalError ->
    busy env (accesses s) = true /\
    table (snd (operation env s)) = table s /\
    accesses (snd (operation env s)) = S (accesses s) /\
    (clock_reads s <= clock_reads (snd (operation env s)))%nat.

(** [run_db_operation] ends with the outcome of its last attempt, which
    finds the table as the first one did; when the store answers within ten
    statements, that attempt does not end with the operational error. *)
Lemma run_db_operation_last_attempt s :
  exists s',
    table s' = table s /\
    (clock_reads s <= clock_reads s')%nat /\
    run_db_operation operation env s = operation env s' /\
    (responsive env s = true -> fst (operation env s') <> Raise OperationalError).
Proof.
  set (Inv := fun (j : nat) (s' : State) =>
    table s' = table s /\ accesses s' = (accesses s + j)%nat /\
    (forall i, (i < j)%nat -> busy env (accesses s + i)%nat = true) /\
    (clock_reads s <= clock_reads s')%nat).
  set (Post := fun (o : outcome A) (s1 : State) =>
    exists s', table s' = table s /\ (clock_reads s <= clock_reads s')%nat /\
               (o, s1) = operation env s' /\
               (responsive env s = true -> o <> Raise OperationalError)).
  assert (H : Post (fst (run_db_operation operation env s))
                   (snd (run_db_operation operation env s))).
  { apply (@run_db_operation_rule A operation env Inv Post).
    - intros j s' Hj (Ht & Ha & Hb & Hc).
      assert (Hother : forall o s1, operation env s' = (o, s1) ->
                o <> Raise OperationalError -> Post o s1).
      { intros o s1 E Ho. exists s'. repeat split; auto. }
      destruct (operation env s') as [o s1] eqn:E.
      destruct o as [a | e]; [apply (Hother _ _ eq_refl); discriminate |].
      destruct e; try (apply (Hother _ _ eq_refl); discriminate).
      destruct (attempt_transient s') as (Eb & Htab & Hacc & Hclock);
        [now rewrite E |].
      rewrite E in Htab, Hacc, Hclock. simpl in Htab, Hacc, Hclock.
      destruct (j <? 9)%nat eqn:Ej.
      + unfold Inv. rewrite table_log, accesses_log. repeat split.
        * congruence.
        * lia.
        * intros i Hi. destruct (Nat.eq_dec i j) as [-> | Hne].
          -- now rewrite <- Ha.
          -- apply Hb. lia.
        * simpl. lia.
      + apply Nat.ltb_ge in Ej. assert (j = 9%nat) by lia. subst j.
        exists s'. split; [exact Ht |]. split; [exact Hc |]. split; [now rewrite E |].
        intros Hresp. apply responsive_spec in Hresp.
        destruct Hresp as [k [Hk Hfree]]. exfalso.
        destruct (Nat.eq_dec k 9) as [-> | Hne].
        * rewrite <- Ha in Hfree. congruence.
        * rewrite Hb in Hfree by lia. discriminate.
    - unfold Inv. repeat split; try lia; intros i Hi; lia. }
  destruct H as [s' (Ht & Hc & Heq & Hb)].
  exists s'. split; [exact Ht |]. split; [exact Hc |]. split.
  - rewrite <- Heq. now destruct (run_db_operation operation env s).
  - intros Hresp. rewrite <- Heq. simpl. now apply Hb.
Qed.

End StoreOperation.

Lemma unlock_last_attempt processor paths env s :
  exists s',
    table s' = table s /\
    DatabaseMutex.unlock processor paths env s =
      DatabaseMutex.unlock_perform processor paths env s' /\
    (responsive env s = true -> busy env (accesses s') = false).
Proof.
  destruct (@run_db_operation_last_attempt unit
              (DatabaseMutex.unlock_perform processor paths) env) with (s := s)
    as [s' (Ht & _ & Heq & Hb)].
  - intros u. rewrite unlock_perform_run. cbv zeta.
    destruct (busy env (accesses u)); [| discriminate].
    intros _. repeat split. simpl. lia.
  - exists s'. split; [exact Ht |]. split; [exact Heq |].
    intros Hresp. specialize (Hb Hresp).
    rewrite unlock_perform_run in Hb. cbv zeta in Hb.
    destruct (busy env (accesses s')); [now elim Hb | reflexivity].
Qed.

Lemma clear_locks_last_attempt age env s :
  exists s',
    table s' = table s /\
    (clock_reads s <= clock_reads s')%nat /\
    DatabaseMutex.clear_locks age env s =
      DatabaseMutex.clear_locks_perform age env s' /\
    (responsive env s = true ->
     fst (DatabaseMutex.clear_locks_perform age env s') <> Raise OperationalError).
Proof.
  apply run_db_operation_last_attempt.
  intros u. rewrite clear_locks_perform_run.
  destruct (age =? 0); cbv zeta.
  - destruct (busy env (accesses u)); [| discriminate].
    intros _. repeat split. simpl. lia.
  - destruct (sweep_threshold age (now env (clock_reads u))); [| discriminate].
    destruct (busy env (accesses u)); [| discriminate].
    intros _. repeat split. simpl. lia.
Qed.

Lemma released_spec processor paths pid r :
  released processor paths pid r = true <->
  row_processor r = processor /\ In (row_path r) paths /\ row_pid r = pid.
Proof.
  unfold released.
  rewrite !andb_true_iff, String.eqb_eq, mem_string_In, Z.eqb_eq. tauto.
Qed.

Lemma filter_keeps_all {X} (f : X -> bool) (l : list X) :
  (forall x, In x l -> f x = true) -> filter f l = l.
Proof.
  induction l as [| x l IH]; intros H; simpl; [reflexivity |].
  rewrite (H x) by now left. f_equal. apply IH. intros y Hy. apply H. now right.
Qed.

Lemma filter_drops_all {X} (f : X -> bool) (l : list X) :
  forallb f l = true -> filter (fun x => negb (f x)) l = [].
Proof.
  induction l as [| x l IH]; simpl; [reflexivity |].
  intros H. apply andb_true_iff in H. destruct H as [Hx Hl].
  rewrite Hx. simpl. now apply IH.
Qed.

(** ** try_lock under the retry loop *)

Lemma quiet_responsive env s : quiet env -> responsive env s = true.
Proof.
  intros Hq. apply responsive_spec. exists 0%nat. split; [lia | apply Hq].
Qed.

Lemma quiet_answers env s n : quiet env -> answers_next env s n.
Proof. intros Hq k _. apply Hq. Qed.

Lemma run_db_operation_invariant {A} (operation : M A) (P : State -> Prop) env s :
  (forall e s', P s' -> P (log e s')) ->
  (forall s', P s' -> P (snd (operation env s'))) ->
  P s -> P (snd (run_db_operation operation env s)).
Proof.
  intros Hlog Hop Hs.
  apply (@run_db_operation_rule A operation env (fun _ s' => P s') (fun _ s1 => P s1));
    [| exact Hs].
  intros j s' Hj Hinv.
  pose proof (Hop s' Hinv) as H.
  destruct (operation env s') as [o s1]. simpl in H.
  destruct o as [a | e]; [exact H |].
  destruct e; try exact H.
  destruct (j <? 9)%nat; [now apply Hlog | exact H].
Qed.

(** When the store answers the inserts of the first attempt, that attempt
    is the only one. *)
Lemma try_lock_quiet processor paths env s :
  answers_next env s (Nat.max 1 (length paths)) ->
  DatabaseMutex.try_lock processor paths env s =
  DatabaseMutex.try_lock_perform processor paths env s.
Proof.
  intros Hq. unfold DatabaseMutex.try_lock, run_db_operation.
  apply run_db_operation_loop_done.
  destruct (@try_lock_attempt_quiet processor paths env s Hq) as [-> _]. discriminate.
Qed.

Lemma try_lock_run processor paths env s :
  answers_next env s (Nat.max 1 (length paths)) ->
  fst (DatabaseMutex.try_lock processor paths env s) =
    Return (match paths with
            | [] => false
            | _ => claimable processor paths (table s)
            end) /\
  table (snd (DatabaseMutex.try_lock processor paths env s)) =
    fst (insert_rows (rows_of env processor paths (clock_reads s)) (table s)).
Proof.
  intros Hq.
  rewrite (@try_lock_quiet processor paths env s Hq).
  destruct (@try_lock_attempt_quiet processor paths env s Hq) as (Ho & Ht & _).
  split; assumption.
Qed.

(** A [try_lock] that returns true has inserted all the rows of one
    attempt into the table it found, and nothing else. *)
Lemma try_lock_success processor paths env s s1 :
  DatabaseMutex.try_lock processor paths env s = (Return true, s1) ->
  claimable processor paths (table s) = true /\
  exists reads, table s1 = table s ++ rows_of env processor paths reads.
Proof.
  intros Hlock.
  set (Inv := fun (j : nat) (s' : State) =>
    table s' = table s \/
    exists p0 rest, paths = p0 :: rest /\ has_key (p0, processor) (table s') = true).
  set (Post := fun (o : outcome bool) (s2 : State) =>
    o = Return true ->
    claimable processor paths (table s) = true /\
    exists reads, table s2 = table s ++ rows_of env processor paths reads).
  assert (H : Post (fst (DatabaseMutex.try_lock processor paths env s))
                   (snd (DatabaseMutex.try_lock processor paths env s))).
  { apply (@run_db_operation_rule bool
             (DatabaseMutex.try_lock_perform processor paths) env Inv Post);
      [| now left].
    intros j s' Hj Hinv.
    destruct (try_lock_attempt processor paths env s')
      as (_ & _ & _ & _ & _ & (i & Hi & Ht & Htrue & _) & _).
    destruct (DatabaseMutex.try_lock_perform processor paths env s') as [o s2].
    cbn [fst snd] in *.
    assert (Hpost : Post o s2).
    { intros ->. destruct (Htrue eq_refl) as (Hne & -> & Hc).
      rewrite firstn_all in Ht.
      destruct Hinv as [Hclean | (p0 & rest & -> & Hkey)].
      - rewrite Hclean in Hc, Ht. split; [exact Hc |]. now exists (clock_reads s').
      - simpl in Hc. rewrite Hkey in Hc. discriminate. }
    destruct o as [b | e]; [exact Hpost |].
    destruct e; try exact Hpost.
    destruct (j <? 9)%nat; [| exact Hpost].
    unfold Inv. rewrite table_log.
    destruct Hinv as [Hclean | (p0 & rest & Hp & Hkey)].
    - destruct i as [| i]; [left; rewrite Ht; simpl; now rewrite app_nil_r |].
      right. destruct paths as [| p0 rest]; [simpl in Hi; lia |].
      exists p0, rest. split; [reflexivity |].
      rewrite Ht, has_key_app. simpl.
      unfold key_eqb, row_key; simpl. rewrite !String.eqb_refl. simpl.
      apply orb_true_r.
    - right. exists p0, rest. split; [exact Hp |].
      rewrite Ht, has_key_app, Hkey. reflexivity. }
  rewrite Hlock in H. exact (H eq_refl).
Qed.

Lemma try_lock_keeps_keys processor paths env s :
  NoDup (map row_key (table s)) ->
  NoDup (map row_key (table (snd (DatabaseMutex.try_lock processor paths env s)))).
Proof.
  apply (run_db_operation_invariant
           (DatabaseMutex.try_lock_perform processor paths)
           (fun s' => NoDup (map row_key (table s')))).
  - intros e s' H. exact H.
  - intros s' H.
    destruct (try_lock_attempt processor paths env s') as (_ & _ & _ & _ & Hk & _).
    exact (Hk H).
Qed.

Lemma released_rows_filtered env processor paths reads t :
  claimable processor paths t = true ->
  filter (fun row => negb (released processor paths (getpid env) row))
         (t ++ rows_of env processor paths reads) = t.
Proof.
  intros Hc. apply claimable_spec in Hc. destruct Hc as [_ Hfree].
  rewrite filter_app.
  rewrite (@filter_drops_all _ (released processor paths (getpid env))
             (rows_of env processor paths reads))
    by (apply rows_of_released, incl_refl).
  rewrite app_nil_r. apply filter_keeps_all.
  intros row Hrow. apply negb_true_iff.
  destruct (released processor paths (getpid env) row) eqn:Er; [| reflexivity].
  apply released_spec in Er. destruct Er as (Hp & Hpath & _).
  exfalso. apply (Hfree _ Hpath). apply in_map_iff.
  exists row. split; [| exact Hrow]. unfold row_key. now rewrite Hp.
Qed.

(** ** DatabaseMutex.try_lock *)

(** C1 (the code fails it): a request over A, B, C while B is held returns
    false, as the claim says, but is not undone: the row for A, inserted and
    committed before the insert for B violated the key, stays in the table,
    so that a third party is refused A although nobody holds it. The claim
    describes what the exclusive transaction prepared in [_connect] would
    give; no transaction is ever begun. *)
Theorem try_lock_leaves_partial_locks :
  let holder := DatabaseMutex.try_lock "p" ["B"] never_busy idle in
  let loser := DatabaseMutex.try_lock "p" ["A"; "B"; "C"] never_busy (snd holder) in
  let third := DatabaseMutex.try_lock "p" ["A"] never_busy (snd loser) in
  fst holder = Return true /\
  fst loser = Return false /\
  map row_path (table (snd loser)) = ["B"; "A"] /\
  table (snd loser) <> table (snd holder) /\
  fst third = Return false.
Proof. vm_compute. repeat split. discriminate. Qed.

(** What a refused request leaves in general, with a store that answers
    the statements of the first attempt: the rows of the paths before the
    first one whose key is present. *)
Lemma try_lock_refused processor paths env s :
  answers_next env s (Nat.max 1 (length paths)) ->
  claimable processor paths (table s) = false ->
  fst (DatabaseMutex.try_lock processor paths env s) = Return false /\
  exists added q rest,
    paths = map row_path added ++ q :: rest /\
    table (snd (DatabaseMutex.try_lock processor paths env s)) = table s ++ added /\
    has_key (q, processor) (table s ++ added) = true /\
    Forall (fun row => row_processor row = processor /\ row_pid row = getpid env /\
                       has_key (row_path row, processor) (table s) = false) added.
Proof.
  intros Hq Hc.
  destruct (@try_lock_run processor paths env s Hq) as [Ho Ht].
  split.
  { rewrite Ho. destruct paths; [reflexivity | now rewrite Hc]. }
  pose proof (insert_rows_claimable env processor paths (clock_reads s) (table s)) as Hs.
  rewrite Hc in Hs.
  destruct (insert_rows_stop _ _ Hs) as (added & r & rest & Hrows & Hfst & Hkey & Hfresh).
  pose proof (rows_of_paths env processor paths (clock_reads s)) as Hpaths.
  pose proof (rows_of_owner env processor paths (clock_reads s)) as Hown.
  rewrite Hrows in Hpaths, Hown. rewrite map_app in Hpaths. simpl in Hpaths.
  apply Forall_app in Hown. destruct Hown as [Hadded Hrest].
  pose proof (Forall_inv Hrest) as [Hrp _].
  exists added, (row_path r), (map row_path rest).
  split; [now rewrite Hpaths |]. split; [now rewrite Ht, Hfst |].
  split; [unfold row_key in Hkey; now rewrite Hrp in Hkey |].
  rewrite Forall_forall in *. intros row Hrow.
  destruct (Hadded row Hrow) as [Hp Hpid]. repeat split; try assumption.
  specialize (Hfresh row Hrow). unfold row_key in Hfresh. now rewrite Hp in Hfresh.
Qed.


(** ** DatabaseMutex.unlock *)

Lemma unlock_run processor paths env s :
  responsive env s = true ->
  fst (DatabaseMutex.unlock processor paths env s) = Return tt /\
  table (snd (DatabaseMutex.unlock processor paths env s)) =
    filter (fun row => negb (released processor paths (getpid env) row)) (table s).
Proof.
  intros Hresp.
  destruct (unlock_last_attempt processor paths env s) as [s' (Ht & Heq & Hb)].
  rewrite Heq, unlock_perform_run. cbv zeta. rewrite (Hb Hresp), Ht. simpl.
  split; reflexivity.
Qed.

(** C5: [unlock] deletes the rows whose processor is the argument, whose
    path is among the given ones and whose pid is the pid of the calling
    process, and leaves every other row, in particular one with the same
    processor and path but another pid. *)
Theorem unlock_releases_own_rows processor paths env s :
  responsive env s = true ->
  let r := DatabaseMutex.unlock processor paths env s in
  fst r = Return tt /\
  table (snd r) =
    filter (fun row => negb (released processor paths (getpid env) row)) (table s) /\
  (forall row,
     In row (table (snd r)) <->
     In row (table s) /\
     ~ (row_processor row = processor /\ In (row_path row) paths /\
        row_pid row = getpid env)) /\
  (forall row, In row (table s) -> row_pid row <> getpid env ->
               In row (table (snd r))).
Proof.
  intros Hresp r. subst r.
  destruct (unlock_run processor paths env s Hresp) as [Hout Htab].
  split; [exact Hout |]. split; [exact Htab |].
  assert (Hin : forall row,
    In row (table (snd (DatabaseMutex.unlock processor paths env s))) <->
    In row (table s) /\
    ~ (row_processor row = processor /\ In (row_path row) paths /\
       row_pid row = getpid env)).
  { intros row. rewrite Htab, filter_In, negb_true_iff, <- released_spec.
    destruct (released processor paths (getpid env) row); intuition congruence. }
  split; [exact Hin |].
  intros row Hrow Hpid. apply Hin. split; [exact Hrow |].
  intros (_ & _ & Hsame). contradiction.
Qed.

Lemma unlock_releases_own_rows_witness :
  let s := set_table [foreign_row; mkRow "doc/42" "stage_y" 4242 1;
                      mkRow "doc/43" "stage_y" 4242 2] idle in
  let r := DatabaseMutex.unlock "stage_y" ["doc/42"] never_busy s in
  fst r = Return tt /\
  table (snd r) =
    filter (fun row => negb (released "stage_y" ["doc/42"] (getpid never_busy) row))
           (table s) /\
  (forall row,
     In row (table (snd r)) <->
     In row (table s) /\
     ~ (row_processor row = "stage_y" /\ In (row_path row) ["doc/42"] /\
        row_pid row = getpid never_busy)) /\
  (forall row, In row (table s) -> row_pid row <> getpid never_busy ->
               In row (table (snd r))).
Proof.
  intros s.
  apply (@unlock_releases_own_rows "stage_y" ["doc/42"] never_busy s).
  reflexivity.
Defined.

(** A row inserted by another process stays, whatever is unlocked. *)
Example unlock_keeps_foreign_row :
  table (snd (DatabaseMutex.unlock "stage_x" ["doc/42"] never_busy
                (set_table [foreign_row] idle))) = [foreign_row].
Proof. reflexivity. Qed.

(** ** try_lock followed by unlock *)

(** C7: after a successful [try_lock processor paths] and the [unlock
    processor paths] of the same process the table is the one before the
    two calls, so a later [try_lock], by any processor and process, over
    any paths, meets the same table and has the same outcome. *)
Theorem try_lock_unlock_round_trip processor paths env s s1 :
  DatabaseMutex.try_lock processor paths env s = (Return true, s1) ->
  responsive env s1 = true ->
  let r := DatabaseMutex.unlock processor paths env s1 in
  fst r = Return tt /\
  table (snd r) = table s /\
  (forall q T, claimable q T (table (snd r)) = claimable q T (table s)) /\
  (forall q T env' u,
     DatabaseMutex.try_lock q T env' (set_table (table (snd r)) u) =
     DatabaseMutex.try_lock q T env' (set_table (table s) u)).
Proof.
  intros Hlock Hresp r.
  assert (Htable : table (snd r) = table s /\ fst r = Return tt).
  { destruct (try_lock_success _ _ _ _ Hlock) as [Hc [reads Hs1]].
    destruct (unlock_run processor paths env s1 Hresp) as (Hout & Hfilter).
    fold r in Hout, Hfilter. split; [| exact Hout].
    rewrite Hfilter, Hs1. now apply released_rows_filtered. }
  destruct Htable as [Htable Hout].
  split; [exact Hout |]. split; [exact Htable |].
  split; intros; now rewrite Htable.
Qed.

Lemma try_lock_unlock_round_trip_witness :
  let s := set_table [foreign_row] idle in
  let s1 := snd (DatabaseMutex.try_lock "stage_y" ["doc/42"; "doc/43"] never_busy s) in
  let r := DatabaseMutex.unlock "stage_y" ["doc/42"; "doc/43"] never_busy s1 in
  fst r = Return tt /\
  table (snd r) = table s /\
  (forall q T, claimable q T (table (snd r)) = claimable q T (table s)) /\
  (forall q T env' u,
     DatabaseMutex.try_lock q T env' (set_table (table (snd r)) u) =
     DatabaseMutex.try_lock q T env' (set_table (table s) u)).
Proof.
  intros s s1.
  apply (@try_lock_unlock_round_trip "stage_y" ["doc/42"; "doc/43"] never_busy s s1).
  - reflexivity.
  - reflexivity.
Defined.

(** ** DatabaseMutex.clear_locks *)

Lemma delete_where_all t : delete_where [] t = [].
Proof. unfold delete_where. induction t as [| r t IH]; simpl; [| exact IH]; reflexivity. Qed.

Lemma delete_where_older threshold t :
  delete_where [TimeLt threshold] t =
  filter (fun row => negb (row_time row <? threshold)) t.
Proof.
  unfold delete_where. apply filter_ext. intros r.
  unfold matches; simpl. now rewrite andb_true_r.
Qed.

Lemma clear_locks_zero env s :
  responsive env s = true ->
  fst (DatabaseMutex.clear_locks 0 env s) = Return tt /\
  table (snd (DatabaseMutex.clear_locks 0 env s)) = [].
Proof.
  intros Hresp.
  destruct (clear_locks_last_attempt 0 env s) as [s' (Ht & _ & Heq & Hb)].
  specialize (Hb Hresp). rewrite Heq. rewrite clear_locks_perform_run in *.
  change (0 =? 0) with true in *. cbv iota zeta in *.
  destruct (busy env (accesses s')); [now elim Hb |].
  split; [reflexivity | apply delete_where_all].
Qed.

Lemma sweep_threshold_cases age t :
  0 < age ->
  sweep_threshold age t =
  if (age / 86400 <=? 999999999) && (0 <=? t - age * 1000000)
     && (t - age * 1000000 <=? datetime_max)
  then Some (t - age * 1000000) else None.
Proof.
  intros Hage. unfold sweep_threshold, timedelta, datetime_sub.
  assert (H : 0 <= age / 86400) by (apply Z.div_pos; lia).
  rewrite (Z.abs_eq _ H).
  destruct (age / 86400 <=? 999999999); [| reflexivity].
  rewrite andb_true_l.
  destruct ((0 <=? t - age * 1000000) && (t - age * 1000000 <=? datetime_max));
    reflexivity.
Qed.

Lemma clear_locks_aged age env s :
  age <> 0 ->
  responsive env s = true ->
  let r := DatabaseMutex.clear_locks age env s in
  (clock_reads s < clock_reads (snd r))%nat /\
  match sweep_threshold age (now env (pred (clock_reads (snd r)))) with
  | Some threshold =>
      fst r = Return tt /\
      table (snd r) =
        filter (fun row => negb (row_time row <? threshold)) (table s)
  | None => fst r = Raise overflow_error /\ table (snd r) = table s
  end.
Proof.
  intros Hage Hresp r. subst r.
  destruct (clear_locks_last_attempt age env s) as [s' (Ht & Hc & Heq & Hb)].
  specialize (Hb Hresp). rewrite Heq. rewrite clear_locks_perform_run in *.
  destruct (age =? 0) eqn:E; [apply Z.eqb_eq in E; contradiction |].
  destruct (sweep_threshold age (now env (clock_reads s'))) as [threshold |] eqn:Et.
  - cbv zeta in *. destruct (busy env (accesses s')); [now elim Hb |].
    cbn [fst snd after_statement set_table table clock_reads Nat.add pred].
    rewrite Et, Ht. split; [lia |]. split; [reflexivity | apply delete_where_older].
  - cbn [fst snd read_clock table clock_reads Nat.add pred].
    rewrite Et, Ht. split; [lia |]. split; reflexivity.
Qed.

(** C8: [clear_locks 0] deletes every row, whoever owns it and whatever its
    time.  [clear_locks age] with a positive age reads the clock in the
    attempt that ends the call; with [t] that reading, the call deletes
    exactly the rows whose time lies more than [age] seconds before [t]
    and returns, whenever [age] seconds is a [timedelta] and the instant
    [age] seconds before [t] is a [datetime]; otherwise it raises
    [OverflowError] and deletes nothing, and no row of a table of
    [datetime]s is that old, so the rows left are in every case the rows
    not older than [age] seconds.  Two sweeps with age 0 in a row both
    return and leave no row. *)
Theorem clear_locks_sweeps age env s :
  responsive env s = true ->
  let r := DatabaseMutex.clear_locks age env s in
  (age = 0 -> fst r = Return tt /\ table (snd r) = []) /\
  (0 < age ->
   (clock_reads s < clock_reads (snd r))%nat /\
   let t := now env (pred (clock_reads (snd r))) in
   let threshold := t - age * 1000000 in
   (age / 86400 <= 999999999 -> 0 <= threshold <= datetime_max ->
    fst r = Return tt /\
    table (snd r) =
      filter (fun row => negb (row_time row <? threshold)) (table s)) /\
   (~ (age / 86400 <= 999999999 /\ 0 <= threshold <= datetime_max) ->
    fst r = Raise overflow_error /\ table (snd r) = table s) /\
   (0 <= t <= datetime_max ->
    (forall row, In row (table s) -> 0 <= row_time row) ->
    forall row,
      In row (table (snd r)) <->
      In row (table s) /\ ~ row_time row < threshold)) /\
  (let first := DatabaseMutex.clear_locks 0 env s in
   responsive env (snd first) = true ->
   let second := DatabaseMutex.clear_locks 0 env (snd first) in
   fst first = Return tt /\ table (snd first) = [] /\
   fst second = Return tt /\ table (snd second) = []).
Proof.
  intros Hresp r. subst r.
  split; [| split].
  - intros ->. now apply clear_locks_zero.
  - intros Hage.
    assert (Hne : age <> 0) by lia.
    destruct (@clear_locks_aged age env s Hne Hresp) as [Hclock Hcases].
    cbv zeta in Hcases.
    split; [exact Hclock |]. cbv zeta.
    rewrite (@sweep_threshold_cases age _ Hage) in Hcases.
    set (t := now env (pred (clock_reads (snd (DatabaseMutex.clear_locks age env s))))) in *.
    destruct ((age / 86400 <=? 999999999) && (0 <=? t - age * 1000000)
              && (t - age * 1000000 <=? datetime_max)) eqn:E.
    + apply andb_prop in E. destruct E as [E E3]. apply andb_prop in E.
      destruct E as [E1 E2].
      apply Z.leb_le in E1, E2, E3. destruct Hcases as [Hout Htab].
      split; [intros _ _; split; assumption |].
      split; [intros Hn; elim Hn; lia |].
      intros _ _ row. rewrite Htab, filter_In, negb_true_iff, Z.ltb_ge.
      split; intros [Hin Hrow]; (split; [exact Hin | lia]).
    + destruct Hcases as [Hout Htab].
      assert (Hn : ~ (age / 86400 <= 999999999 /\
                      0 <= t - age * 1000000 <= datetime_max)).
      { intros (H1 & H2 & H3).
        apply Z.leb_le in H1, H2, H3. now rewrite H1, H2, H3 in E. }
      split; [intros H1 H2; elim Hn; now split |].
      split; [intros _; split; assumption |].
      intros Ht Hrows row. rewrite Htab.
      split; [| now intros [Hin _]].
      intros Hin. split; [exact Hin |].
      specialize (Hrows row Hin).
      assert (Hlt : t - age * 1000000 < 0).
      { destruct (Z.le_gt_cases (age / 86400) 999999999) as [H1 | H1].
        - destruct (Z.lt_ge_cases (t - age * 1000000) 0) as [H2 | H2]; [exact H2 |].
          elim Hn. split; [exact H1 |]. split; [exact H2 | lia].
        - assert (86400 * (age / 86400) <= age)
            by (apply Z.mul_div_le; lia).
          unfold datetime_max in Ht. lia. }
      lia.
  - intros first Hresp2 second.
    destruct (@clear_locks_zero env s Hresp) as [Hout1 Htab1].
    destruct (@clear_locks_zero env (snd first) Hresp2) as [Hout2 Htab2].
    repeat split; assumption.
Qed.

Lemma clear_locks_sweeps_witness :
  let s := set_table [mkRow "a" "p" 1 5000000; mkRow "b" "p" 2 9000000] idle in
  let env := mkEnv 4242 (fun _ => 10000000) (fun k => Nat.ltb k 2) (fun _ => Return tt) in
  let r := DatabaseMutex.clear_locks 3 env s in
  responsive env s = true /\
  fst r = Return tt /\
  table (snd r) = [mkRow "b" "p" 2 9000000] /\
  (forall row,
     In row (table (snd r)) <->
     In row (table s) /\ ~ row_time row < 10000000 - 3 * 1000000).
Proof.
  intros s env r.
  pose proof (@clear_locks_sweeps 3 env s eq_refl) as H.
  cbv zeta in H. destruct H as (_ & H & _).
  specialize (H ltac:(lia)). destruct H as (_ & Hret & _ & Hrows).
  split; [reflexivity |].
  destruct Hret as [Hout Htab]; [vm_compute; discriminate | vm_compute; split; discriminate |].
  split; [exact Hout |]. split; [exact Htab |].
  apply Hrows.
  - vm_compute. split; discriminate.
  - intros row [<- | [<- | []]]; vm_compute; discriminate.
Defined.

Example clear_locks_by_age :
  let s := set_table [mkRow "a" "p" 1 5000000; mkRow "b" "p" 2 9000000] idle in
  let env := mkEnv 4242 (fun _ => 10000000) (fun _ => false) (fun _ => Return tt) in
  table (snd (DatabaseMutex.clear_locks 3 env s)) = [mkRow "b" "p" 2 9000000] /\
  table (snd (DatabaseMutex.clear_locks 0 env s)) = [].
Proof. split; reflexivity. Qed.

Example clear_locks_beyond_the_calendar :
  let s := set_table [mkRow "a" "p" 1 5000000] idle in
  let env := mkEnv 4242 (fun _ => 10000000) (fun _ => false) (fun _ => Return tt) in
  DatabaseMutex.clear_locks 11 env s =
    (Raise overflow_error, read_clock 1 s) /\
  fst (DatabaseMutex.clear_locks (86400 * 1000000000) env s) = Raise overflow_error /\
  trace (snd (DatabaseMutex.clear_locks 11 env s)) = [].
Proof. repeat split; reflexivity. Qed.

(** ** Integrity failures and the retry loop *)

(** An attempt of [try_lock] in terms of the statement it sends. *)
Lemma try_lock_perform_execute processor paths env s :
  DatabaseMutex.try_lock_perform processor paths env s =
  let rows := rows_of env processor paths (clock_reads s) in
  let sent := execute (Insert rows) env
                (read_clock (length paths) (set_connections (S (connections s)) s)) in
  (match fst sent with
   | Return _ => Return true
   | Raise IntegrityError => Return false
   | Raise e => Raise e
   end,
   set_connections (pred (connections (snd sent))) (snd sent)).
Proof.
  rewrite try_lock_perform_run. cbv zeta. unfold execute.
  destruct (rows_of env processor paths (clock_reads s)); reflexivity.
Qed.

(** The multi-row insert that ends in an integrity error has committed the
    rows before the one whose key was taken. *)
Lemma executemany_integrity rows env : forall s,
  fst (executemany rows env s) = Raise IntegrityError ->
  exists added q rest,
    rows = added ++ q :: rest /\
    table (snd (executemany rows env s)) = table s ++ added /\
    has_key (row_key q) (table s ++ added) = true /\
    accesses (snd (executemany rows env s)) = (accesses s + S (length added))%nat.
Proof.
  induction rows as [| r rows IH]; intros s; simpl; [discriminate |].
  unfold bind, insert_one.
  destruct (busy env (accesses s)); [discriminate |].
  destruct (has_key (row_key r) (table s)) eqn:Ek.
  - intros _. exists [], r, rows. simpl. rewrite app_nil_r.
    repeat split; [exact Ek | lia].
  - intros H.
    destruct (IH (set_table (table s ++ [r]) (tick_access s)) H)
      as (added & q & rest & Hrows & Ht & Hk & Ha).
    exists (r :: added), q, rest. simpl in *.
    rewrite <- app_assoc in Ht, Hk. simpl in Ht, Hk.
    repeat split; [now rewrite Hrows | exact Ht | exact Hk | lia].
Qed.

(** C6: when the insert of an attempt of [try_lock] raises the integrity
    error, the error is caught inside that attempt, which returns false;
    the retry loop, at whatever count it stands, ends with this one
    attempt: one statement sent, no sleep, no second attempt.  The table is
    the one the failed insert left: the rows before the one whose key was
    taken are in it (for an empty list of paths the insert of default
    values adds nothing).  The loop calls the operation again only after an
    operational error: any other outcome of an attempt is the outcome of
    the loop. *)
Theorem integrity_failure_is_not_retried processor paths env s backoff :
  let rows := rows_of env processor paths (clock_reads s) in
  let sent := execute (Insert rows) env
                (read_clock (length paths) (set_connections (S (connections s)) s)) in
  fst sent = Raise IntegrityError ->
  let r := run_db_operation_loop
             (DatabaseMutex.try_lock_perform processor paths) backoff env s in
  r = DatabaseMutex.try_lock_perform processor paths env s /\
  fst r = Return false /\
  table (snd r) = table (snd sent) /\
  (exists added rest,
     rows = added ++ rest /\
     table (snd r) = table s ++ added /\
     accesses (snd r) = (accesses s + S (length added))%nat /\
     match rest with
     | [] => paths = []
     | q :: _ => has_key (row_key q) (table s ++ added) = true
     end) /\
  trace (snd r) = trace s ++ [EvExecute (Insert rows)] /\
  sleeps (snd r) = sleeps s /\
  (forall (A : Type) (operation : M A) b env' s',
     fst (operation env' s') <> Raise OperationalError ->
     run_db_operation_loop operation b env' s' = operation env' s') /\
  (forall (A : Type) (operation : M A) b env' s' s1,
     operation env' s' = (Raise OperationalError, s1) -> b <= 8 ->
     run_db_operation_loop operation b env' s' =
     run_db_operation_loop operation (b + 1) env'
       (log (EvSleep (backoff_delay b)) s1)).
Proof.
  intros rows sent Hint r.
  assert (Hrun : DatabaseMutex.try_lock_perform processor paths env s =
                 (Return false,
                  set_connections (pred (connections (snd sent))) (snd sent))).
  { rewrite try_lock_perform_execute. cbv zeta. fold rows. fold sent.
    now rewrite Hint. }
  assert (Hr : r = DatabaseMutex.try_lock_perform processor paths env s).
  { subst r. apply run_db_operation_loop_done. rewrite Hrun. discriminate. }
  destruct (execute_frame (Insert rows) env
              (read_clock (length paths) (set_connections (S (connections s)) s)))
    as (_ & _ & _ & Htrace).
  fold sent in Htrace.
  split; [exact Hr |]. rewrite Hr, Hrun. cbn [fst snd].
  split; [reflexivity |]. split; [reflexivity |].
  split; [| split; [exact Htrace | split; [| split]]].
  - assert (Hrows : length rows = length paths).
    { unfold rows. rewrite <- (length_map row_path), rows_of_paths. reflexivity. }
    unfold sent, execute in *.
    destruct rows as [| r0 rows'] eqn:Erows.
    + exists [], []. unfold insert_default_values in *. simpl in *.
      destruct (busy env (accesses s)); [discriminate |]. simpl.
      rewrite app_nil_r. repeat split; [lia |].
      destruct paths; [reflexivity | discriminate].
    + destruct (@executemany_integrity (r0 :: rows') env _ Hint)
        as (added & q & rest & Hsplit & Ht & Hk & Ha).
      exists added, (q :: rest). simpl in Ht, Hk, Ha |- *.
      repeat split; assumption.
  - unfold sleeps. simpl. rewrite Htrace, flat_map_app. simpl. apply app_nil_r.
  - intros A operation b env' s'. apply run_db_operation_loop_done.
  - intros A operation b env' s' s1. apply run_db_operation_loop_retry.
Qed.

Lemma integrity_failure_is_not_retried_witness :
  let s := set_table [mkRow "doc/42" "stage_x" 17 0] idle in
  let paths := ["doc/41"; "doc/42"] in
  let rows := rows_of never_busy "stage_x" paths (clock_reads s) in
  let sent := execute (Insert rows) never_busy
                (read_clock (length paths) (set_connections (S (connections s)) s)) in
  let r := run_db_operation_loop
             (DatabaseMutex.try_lock_perform "stage_x" paths) 0 never_busy s in
  fst sent = Raise IntegrityError /\
  r = DatabaseMutex.try_lock_perform "stage_x" paths never_busy s /\
  fst r = Return false /\
  table (snd r) = table (snd sent) /\
  (exists added rest,
     rows = added ++ rest /\
     table (snd r) = table s ++ added /\
     accesses (snd r) = (accesses s + S (length added))%nat /\
     match rest with
     | [] => paths = []
     | q :: _ => has_key (row_key q) (table s ++ added) = true
     end) /\
  trace (snd r) = trace s ++ [EvExecute (Insert rows)] /\
  sleeps (snd r) = sleeps s /\
  (forall (A : Type) (operation : M A) b env' s',
     fst (operation env' s') <> Raise OperationalError ->
     run_db_operation_loop operation b env' s' = operation env' s') /\
  (forall (A : Type) (operation : M A) b env' s' s1,
     operation env' s' = (Raise OperationalError, s1) -> b <= 8 ->
     run_db_operation_loop operation b env' s' =
     run_db_operation_loop operation (b + 1) env'
       (log (EvSleep (backoff_delay b)) s1)).
Proof.
  intros s paths rows sent r.
  split; [reflexivity |].
  apply (@integrity_failure_is_not_retried "stage_x" paths never_busy s 0).
  reflexivity.
Defined.

Example integrity_failure_keeps_earlier_rows :
  let s := set_table [mkRow "doc/42" "stage_x" 17 0] idle in
  let r := DatabaseMutex.try_lock "stage_x" ["doc/41"; "doc/42"] never_busy s in
  fst r = Return false /\
  map row_path (table (snd r)) = ["doc/42"; "doc/41"] /\
  accesses (snd r) = 2%nat /\
  sleeps (snd r) = [] /\
  DatabaseMutex.try_lock "stage_x" [] never_busy s =
    (Return false, after_statement (Insert []) 0 s).
Proof. repeat split; reflexivity. Qed.

(** ** DatabaseMutex.lock *)

(** C4: [with mutex.lock(processor, paths) as locked: body(locked)] calls
    [try_lock] first; when that raises, neither the body nor [unlock] runs;
    otherwise the body receives the flag, and whether the body returns or
    raises, [unlock] runs after it if the flag is true and nothing runs
    after it if the flag is false. An error of [unlock] replaces the
    outcome of the body. *)
Theorem lock_unlocks_iff_acquired (B : Type) processor paths (body : bool -> M B) env s :
  with_ (DatabaseMutex.lock processor paths) body env s =
  match DatabaseMutex.try_lock processor paths env s with
  | (Raise e, s1) => (Raise e, s1)
  | (Return success, s1) =>
      match body success env s1 with
      | (o, s2) =>
          if success then
            match DatabaseMutex.unlock processor paths env s2 with
            | (Return _, s3) => (returned o, s3)
            | (Raise e, s3) => (Raise e, s3)
            end
          else (returned o, s2)
      end
  end.
Proof.
  unfold with_, cm_enter, DatabaseMutex.lock.
  destruct (DatabaseMutex.try_lock processor paths env s) as [[success | e] s1];
    [| reflexivity].
  destruct (body success env s1) as [[b | e] s2]; unfold cm_exit;
    destruct success; simpl;
    try destruct (DatabaseMutex.unlock processor paths env s2) as [[[] | e'] s3];
    reflexivity.
Qed.

(** The body fails and the lock is released all the same. *)
Example lock_releases_after_exception :
  let r := with_ (DatabaseMutex.lock "proc_a" ["/a/b/c"])
                 (fun locked => @raise unit (OtherError "body")) never_busy idle in
  fst r = Raise (OtherError "body") /\ table (snd r) = [] /\
  accesses (snd r) = 2%nat.
Proof. vm_compute. repeat split. Qed.

(** The lock is held by somebody else: the body sees false and no
    statement follows it. *)
Example lock_not_acquired_does_not_unlock :
  let s := set_table [mkRow "/a/b/c" "proc_a" 17 0] idle in
  let r := with_ (DatabaseMutex.lock "proc_a" ["/a/b/c"])
                 (fun locked => ret locked) never_busy s in
  fst r = Return (Some false) /\ table (snd r) = table s /\
  accesses (snd r) = 1%nat.
Proof. vm_compute. repeat split. Qed.

(** ** FileMutex.lock *)

(** C9: with a list of paths whose length is not 1 the context manager
    raises the usage error on entry: the state is untouched (no attempt to
    lock a file is made, no lock is held), nothing is handed to the body
    and the body does not run. *)
Theorem file_lock_rejects_chunked_locking processor paths env s :
  length paths <> 1%nat ->
  FileMutex.lock processor paths env s = (Finished (Raise chunked_locking_error), s) /\
  cm_enter (FileMutex.lock processor paths) env s = (Raise chunked_locking_error, s) /\
  yielded (fst (cm_enter (FileMutex.lock processor paths) env s)) = None /\
  (forall (B : Type) (body : bool -> M B),
     with_ (FileMutex.lock processor paths) body env s =
     (Raise chunked_locking_error, s)).
Proof.
  intros Hlen.
  assert (Hgen : FileMutex.lock processor paths env s =
                 (Finished (Raise chunked_locking_error), s)).
  { unfold FileMutex.lock.
    destruct (Nat.eqb (length paths) 1) eqn:E; [| reflexivity].
    apply Nat.eqb_eq in E. contradiction. }
  split; [exact Hgen |].
  unfold with_, cm_enter. rewrite Hgen. simpl.
  repeat split.
Qed.

Lemma file_lock_rejects_chunked_locking_witness :
  FileMutex.lock "p" ["a"; "b"] never_busy idle =
    (Finished (Raise chunked_locking_error), idle) /\
  cm_enter (FileMutex.lock "p" ["a"; "b"]) never_busy idle =
    (Raise chunked_locking_error, idle) /\
  yielded (fst (cm_enter (FileMutex.lock "p" ["a"; "b"]) never_busy idle)) = None /\
  (forall (B : Type) (body : bool -> M B),
     with_ (FileMutex.lock "p" ["a"; "b"]) body never_busy idle =
     (Raise chunked_locking_error, idle)).
Proof.
  apply (@file_lock_rejects_chunked_locking "p" ["a"; "b"] never_busy idle).
  simpl. lia.
Defined.

(** C10: with a single path the context manager hands false to the body
    exactly when acquiring the lock raised [AlreadyLocked] or
    [LockException], and true when the lock was acquired; any other
    exception of the acquisition, such as the one for a file that does not
    exist, leaves the [with] statement and the body does not run. *)
Theorem file_lock_single_path processor path env s :
  let entered := cm_enter (FileMutex.lock processor [path]) env s in
  (yielded (fst entered) = Some false <->
   os_lock env path = Raise AlreadyLocked \/ os_lock env path = Raise LockException) /\
  (yielded (fst entered) = Some true <-> exists u, os_lock env path = Return u) /\
  (forall e, os_lock env path = Raise e -> FileMutex.is_lock_failure e = false ->
     fst entered = Raise e /\
     forall (B : Type) (body : bool -> M B),
       with_ (FileMutex.lock processor [path]) body env s =
       (Raise e, log (EvAcquire path) s)).
Proof.
  intros entered. subst entered.
  unfold with_, cm_enter, FileMutex.lock, FileMutex.portalocker_acquire. simpl.
  destruct (os_lock env path) as [u | e]; simpl.
  - split; [| split].
    + split; [discriminate | intros [H | H]; discriminate].
    + split; [intros _; now exists u | reflexivity].
    + intros e H. discriminate.
  - destruct e; simpl;
      (split; [| split];
       [ split; [try discriminate; auto | try (intros [H | H]; discriminate); auto]
       | split; [discriminate | intros [u H]; discriminate]
       | intros e' H Hf; inversion H; subst; try discriminate;
         split; reflexivity ]).
Qed.

(** A file that does not exist: the error of [open] reaches the caller. *)
Example file_lock_missing_file :
  let env := mkEnv 4242 (fun _ => 0) (fun _ => false) (fun _ => Raise FileNotFoundError) in
  with_ (FileMutex.lock "p" ["no/such/file"]) (fun locked => ret locked) env idle =
  (Raise FileNotFoundError, log (EvAcquire "no/such/file") idle).
Proof. reflexivity. Qed.

(** A lock exception raised by the body itself, after a successful
    acquisition, is caught by the same handler; the second [yield] is
    refused by the context manager and never reaches the body. *)
Example file_lock_body_lock_exception :
  fst (with_ (FileMutex.lock "p" ["a"]) (fun locked => @raise unit LockException)
             never_busy idle) =
  Raise (RuntimeError "generator didn't stop after throw()").
Proof. reflexivity. Qed.

(** ** The three providers *)

(** C3, as stated, fails: FileMutex defines neither [try_lock] nor
    [unlock]; a caller that uses them gets an attribute error. *)
Lemma file_mutex_lacks_try_lock_and_unlock :
  hasattr FileMutexClass "try_lock" = false /\
  hasattr FileMutexClass "unlock" = false /\
  call_try_lock FileMutexClass "p" ["a"] never_busy idle =
    (Raise (AttributeError "try_lock"), idle) /\
  call_unlock FileMutexClass "p" ["a"] never_busy idle =
    (Raise (AttributeError "unlock"), idle) /\
  ~ (forall c, hasattr c "try_lock" = true /\ hasattr c "unlock" = true /\
               hasattr c "lock" = true).
Proof.
  repeat split.
  intros H. destruct (H FileMutexClass) as [Htry _]. discriminate.
Qed.

(** C3, amended: every provider has the scoped [lock], so the three are
    interchangeable for a caller that only uses [lock] in a [with]
    statement; DatabaseMutex and DummyMutex also have [try_lock] and
    [unlock]; FileMutex has [lock] alone. *)
Theorem providers_share_scoped_lock :
  (forall c, exists f, getattr c "lock" = Some (LockMethod f)) /\
  (forall (B : Type) processor paths (body : bool -> M B),
     call_lock DatabaseMutexClass processor paths body =
       with_ (DatabaseMutex.lock processor paths) body /\
     call_lock FileMutexClass processor paths body =
       with_ (FileMutex.lock processor paths) body /\
     call_lock DummyMutexClass processor paths body =
       with_ (DummyMutex.lock processor paths) body) /\
  getattr DatabaseMutexClass "try_lock" = Some (TryLockMethod DatabaseMutex.try_lock) /\
  getattr DatabaseMutexClass "unlock" = Some (UnlockMethod DatabaseMutex.unlock) /\
  getattr DummyMutexClass "try_lock" = Some (TryLockMethod DummyMutex.try_lock) /\
  getattr DummyMutexClass "unlock" = Some (UnlockMethod DummyMutex.unlock) /\
  map fst (class_dict FileMutexClass) = ["lock"].
Proof.
  split; [| split].
  - intros []; eexists; reflexivity.
  - intros B processor paths body. repeat split.
  - repeat split.
Qed.

(** * Further properties of the lock providers *)

(** ** The retry loop: recovery and bounds *)

(** An operation that fails with the operational error [k] times, [k] at
    most 9, and then ends in any other way: [run_db_operation] ends with
    that outcome, after exactly [k] sleeps, the first [k] delays of the
    schedule. *)
Theorem run_db_operation_recovers (A : Type) (operation : M A) env s (k : nat) :
  (k <= 9)%nat ->
  (forall i, (i < k)%nat ->
     fst (operation env (failed_attempts operation 0 i env s)) = Raise OperationalError) ->
  fst (operation env (failed_attempts operation 0 k env s)) <> Raise OperationalError ->
  (forall s', sleeps (snd (operation env s')) = sleeps s') ->
  run_db_operation operation env s =
    operation env (failed_attempts operation 0 k env s) /\
  sleeps (snd (run_db_operation operation env s)) = sleeps s ++ backoff_schedule k.
Proof.
  intros Hk Hfail Hok Hsl.
  assert (Heq : run_db_operation operation env s =
                operation env (failed_attempts operation 0 k env s)).
  { pose proof (@run_db_operation_rule A operation env
             (fun j s' => (j <= k)%nat /\ s' = failed_attempts operation 0 j env s)
             (fun o s1 => (o, s1) = operation env (failed_attempts operation 0 k env s)))
      as Hrule.
    rewrite (surjective_pairing (run_db_operation operation env s)).
    apply Hrule; [| split; [lia | reflexivity]].
    intros j s' Hj9 [Hjk ->].
    destruct (Nat.eq_dec j k) as [-> | Hne].
    - destruct (operation env (failed_attempts operation 0 k env s)) as [o s1] eqn:E.
      simpl in Hok. destruct o as [a | e]; [reflexivity |].
      destruct e; try reflexivity. contradiction.
    - assert (Hlt : (j < k)%nat) by lia.
      pose proof (Hfail j Hlt) as Hf.
      destruct (operation env (failed_attempts operation 0 j env s)) as [o s1] eqn:E.
      simpl in Hf. subst o.
      assert (Hj : (j <? 9)%nat = true) by (apply Nat.ltb_lt; lia).
      rewrite Hj. split; [lia |].
      rewrite failed_attempts_last, E. reflexivity. }
  split; [exact Heq |].
  rewrite Heq, Hsl, failed_attempts_sleeps by exact Hsl. reflexivity.
Qed.

Lemma run_db_operation_recovers_witness :
  let env := mkEnv 4242 (fun _ => 0) (fun k => Nat.ltb k 3) (fun _ => Return tt) in
  run_db_operation (execute (Delete [])) env idle =
    execute (Delete []) env (failed_attempts (execute (Delete [])) 0 3 env idle) /\
  sleeps (snd (run_db_operation (execute (Delete [])) env idle)) =
    sleeps idle ++ backoff_schedule 3.
Proof.
  intros env.
  apply (@run_db_operation_recovers unit (execute (Delete [])) env idle 3).
  - lia.
  - intros i Hi.
    destruct i as [| [| [| i]]]; [reflexivity | reflexivity | reflexivity | lia].
  - vm_compute. discriminate.
  - intros s'. apply sleeps_execute.
Defined.

Lemma total_sleep_bound k :
  (k <= 9)%nat -> (total_sleep (backoff_schedule k) <= 511 # 10)%Q.
Proof.
  intros Hk.
  do 10 (destruct k as [| k]; [vm_compute; discriminate |]).
  lia.
Qed.

(** Whatever the operation does, as long as each attempt sends one
    statement and does not sleep itself: [run_db_operation] makes at most
    ten attempts, sleeps the first delays of the schedule, one per failed
    attempt but the last, and so never more than 51.1 seconds in all. *)
Theorem run_db_operation_bounded (A : Type) (operation : M A) env s :
  (forall s', accesses (snd (operation env s')) = S (accesses s')) ->
  (forall s', sleeps (snd (operation env s')) = sleeps s') ->
  let r := run_db_operation operation env s in
  exists k, (k <= 9)%nat /\
    accesses (snd r) = (accesses s + k + 1)%nat /\
    sleeps (snd r) = sleeps s ++ backoff_schedule k /\
    (total_sleep (backoff_schedule k) <= 511 # 10)%Q.
Proof.
  intros Hacc Hsl r. subst r.
  apply (@run_db_operation_rule A operation env
           (fun j s' => accesses s' = (accesses s + j)%nat /\
                        sleeps s' = sleeps s ++ backoff_schedule j)
           (fun _ s1 => exists k, (k <= 9)%nat /\
                          accesses s1 = (accesses s + k + 1)%nat /\
                          sleeps s1 = sleeps s ++ backoff_schedule k /\
                          (total_sleep (backoff_schedule k) <= 511 # 10)%Q)).
  - intros j s' Hj [Ha Hs].
    assert (Hend : forall o s1, operation env s' = (o, s1) ->
              exists k, (k <= 9)%nat /\
                accesses s1 = (accesses s + k + 1)%nat /\
                sleeps s1 = sleeps s ++ backoff_schedule k /\
                (total_sleep (backoff_schedule k) <= 511 # 10)%Q).
    { intros o s1 E. exists j. split; [exact Hj |].
      pose proof (Hacc s') as Ha1. pose proof (Hsl s') as Hs1.
      rewrite E in Ha1, Hs1. simpl in Ha1, Hs1.
      split; [lia |]. split; [congruence | now apply total_sleep_bound]. }
    destruct (operation env s') as [o s1] eqn:E.
    destruct o as [a | e]; [now apply (Hend _ _ eq_refl) |].
    destruct e; try (now apply (Hend _ _ eq_refl)).
    destruct (j <? 9)%nat eqn:Ej; [| now apply (Hend _ _ eq_refl)].
    pose proof (Hacc s') as Ha1. pose proof (Hsl s') as Hs1.
    rewrite E in Ha1, Hs1. simpl in Ha1, Hs1.
    rewrite accesses_log, sleeps_log_sleep. split; [lia |].
    rewrite Hs1, Hs. unfold backoff_schedule.
    rewrite seq_S, map_app, app_assoc. reflexivity.
  - split; [lia |]. unfold backoff_schedule. simpl. now rewrite app_nil_r.
Qed.

Lemma run_db_operation_bounded_witness :
  let r := run_db_operation (execute (Delete [])) always_busy idle in
  exists k, (k <= 9)%nat /\
    accesses (snd r) = (accesses idle + k + 1)%nat /\
    sleeps (snd r) = sleeps idle ++ backoff_schedule k /\
    (total_sleep (backoff_schedule k) <= 511 # 10)%Q.
Proof.
  apply (@run_db_operation_bounded unit (execute (Delete [])) always_busy idle).
  - intros s'. apply accesses_execute.
  - intros s'. apply sleeps_execute.
Defined.

Lemma unlock_table_cases processor paths env s :
  table (snd (DatabaseMutex.unlock processor paths env s)) = table s \/
  table (snd (DatabaseMutex.unlock processor paths env s)) =
    filter (fun row => negb (released processor paths (getpid env) row)) (table s).
Proof.
  destruct (unlock_last_attempt processor paths env s) as [s' (Ht & Heq & _)].
  rewrite Heq, unlock_perform_run. cbv zeta.
  destruct (busy env (accesses s')); [left; exact Ht |].
  right. simpl. now rewrite Ht.
Qed.

Lemma clear_locks_table_cases age env s :
  table (snd (DatabaseMutex.clear_locks age env s)) = table s \/
  exists where_,
    table (snd (DatabaseMutex.clear_locks age env s)) = delete_where where_ (table s).
Proof.
  destruct (clear_locks_last_attempt age env s) as [s' (Ht & _ & Heq & _)].
  rewrite Heq, clear_locks_perform_run.
  destruct (age =? 0); cbv zeta.
  - destruct (busy env (accesses s')); [left; exact Ht |].
    right; eexists; simpl; now rewrite Ht.
  - destruct (sweep_threshold age (now env (clock_reads s'))); [| left; exact Ht].
    destruct (busy env (accesses s')); [left; exact Ht |].
    right; eexists; simpl; now rewrite Ht.
Qed.

Lemma run_db_operation_preserves {A X} (operation : M A) (f : State -> X) env s :
  (forall e s', f (log e s') = f s') ->
  (forall s', f (snd (operation env s')) = f s') ->
  f (snd (run_db_operation operation env s)) = f s.
Proof.
  intros Hlog Hop.
  apply (@run_db_operation_rule A operation env
           (fun _ s' => f s' = f s) (fun _ s1 => f s1 = f s)); [| reflexivity].
  intros j s' Hj Hinv.
  pose proof (Hop s') as H.
  destruct (operation env s') as [o s1]. simpl in H.
  destruct o as [a | e]; [congruence |].
  destruct e; try congruence.
  destruct (j <? 9)%nat; [rewrite Hlog |]; congruence.
Qed.

Lemma NoDup_map_filter {X Y} (f : X -> Y) (g : X -> bool) (l : list X) :
  NoDup (map f l) -> NoDup (map f (filter g l)).
Proof.
  induction l as [| x l IH]; simpl; intros H; [constructor |].
  inversion H as [| ? ? Hx Hl]; subst.
  destruct (g x); simpl; [| now apply IH].
  constructor; [| now apply IH].
  intros Hin. apply Hx. apply in_map_iff in Hin.
  destruct Hin as [y [Hy Hin]]. apply filter_In in Hin.
  apply in_map_iff. exists y. tauto.
Qed.

Lemma rows_of_keys env processor paths : forall reads,
  map row_key (rows_of env processor paths reads) =
  map (fun p => (p, processor)) paths.
Proof.
  induction paths as [| p paths IH]; intros reads; simpl; [reflexivity |].
  now rewrite IH.
Qed.

Lemma NoDup_keys_claimed env processor paths reads t :
  NoDup (map row_key t) ->
  claimable processor paths t = true ->
  NoDup (map row_key (t ++ rows_of env processor paths reads)).
Proof.
  intros Ht Hc. apply claimable_spec in Hc. destruct Hc as [Hnd Hfree].
  rewrite map_app, rows_of_keys. apply NoDup_app; [exact Ht | |].
  - clear Hfree. induction Hnd as [| p l Hp Hl IH]; simpl; constructor; [| exact IH].
    intros Hin. apply in_map_iff in Hin. destruct Hin as [q [Hq Hin]].
    inversion Hq; subst. contradiction.
  - intros k Hk Hin. apply in_map_iff in Hin.
    destruct Hin as [p [<- Hp]]. exact (Hfree p Hp Hk).
Qed.

(** ** DatabaseMutex: invariants *)

(** The key (path, processor) stays unique: no call of [try_lock],
    [unlock] or [clear_locks], whatever its arguments, its caller and the
    answers of the store, leaves two rows with the same key. *)
Theorem primary_key_is_kept env s :
  NoDup (map row_key (table s)) ->
  (forall processor paths,
     NoDup (map row_key (table (snd (DatabaseMutex.try_lock processor paths env s))))) /\
  (forall processor paths,
     NoDup (map row_key (table (snd (DatabaseMutex.unlock processor paths env s))))) /\
  (forall age,
     NoDup (map row_key (table (snd (DatabaseMutex.clear_locks age env s))))).
Proof.
  intros Hnd. split; [| split].
  - intros processor paths. now apply try_lock_keeps_keys.
  - intros processor paths.
    destruct (unlock_table_cases processor paths env s) as [-> | ->];
      [exact Hnd | now apply NoDup_map_filter].
  - intros age.
    destruct (clear_locks_table_cases age env s) as [-> | [where_ ->]];
      [exact Hnd | now apply NoDup_map_filter].
Qed.

Lemma primary_key_is_kept_witness :
  let s := set_table [foreign_row; mkRow "doc/43" "stage_x" 4242 1] idle in
  (forall processor paths,
     NoDup (map row_key (table (snd (DatabaseMutex.try_lock processor paths never_busy s))))) /\
  (forall processor paths,
     NoDup (map row_key (table (snd (DatabaseMutex.unlock processor paths never_busy s))))) /\
  (forall age,
     NoDup (map row_key (table (snd (DatabaseMutex.clear_locks age never_busy s))))).
Proof.
  intros s. apply (@primary_key_is_kept never_busy s).
  simpl. constructor.
  - simpl. intros [H | []]. discriminate.
  - constructor; [intros [] | constructor].
Defined.

Lemma after_statement_connections st reads s :
  connections (after_statement st reads s) = connections s.
Proof. reflexivity. Qed.

(** Every call of a store operation closes the connection it opened,
    however it ends: by a result, by the error raised after the last
    retry, with or without retries in between. *)
Theorem store_operations_close_their_connection env s :
  (forall processor paths,
     connections (snd (DatabaseMutex.try_lock processor paths env s)) = connections s) /\
  (forall processor paths,
     connections (snd (DatabaseMutex.unlock processor paths env s)) = connections s) /\
  (forall age,
     connections (snd (DatabaseMutex.clear_locks age env s)) = connections s).
Proof.
  split; [| split]; intros;
    apply (run_db_operation_preserves _ connections); try reflexivity; intros s'.
  - now destruct (try_lock_attempt processor paths env s') as (Hc & _).
  - rewrite unlock_perform_run. cbv zeta.
    destruct (busy env (accesses s')); reflexivity.
  - rewrite clear_locks_perform_run.
    destruct (age =? 0); cbv zeta.
    + destruct (busy env (accesses s')); reflexivity.
    + destruct (sweep_threshold age (now env (clock_reads s'))); [| reflexivity].
      destruct (busy env (accesses s')); reflexivity.
Qed.

(** ** DatabaseMutex: exclusion *)

Lemma claimable_overlap env processor S T reads t x :
  In x S -> In x T ->
  claimable processor T (t ++ rows_of env processor S reads) = false.
Proof.
  intros HS HT.
  destruct (claimable processor T (t ++ rows_of env processor S reads)) eqn:E;
    [| reflexivity].
  apply claimable_spec in E. destruct E as [_ Hfree].
  exfalso. apply (Hfree x HT).
  rewrite map_app, rows_of_keys. apply in_or_app. right.
  apply in_map_iff. exists x. split; [reflexivity | exact HS].
Qed.

Lemma has_key_rows_other env p q S x : forall reads,
  q <> p -> has_key (x, q) (rows_of env p S reads) = false.
Proof.
  intros reads Hq.
  destruct (has_key (x, q) (rows_of env p S reads)) eqn:E; [| reflexivity].
  apply has_key_In in E. rewrite rows_of_keys in E.
  apply in_map_iff in E. destruct E as [y [Hy _]]. inversion Hy. congruence.
Qed.

Lemma claimable_other_processor env p q S T reads t :
  q <> p ->
  claimable q T (t ++ rows_of env p S reads) = claimable q T t.
Proof.
  intros Hq. induction T as [| x T IH]; simpl; [reflexivity |].
  rewrite IH, has_key_app, (has_key_rows_other env S x reads Hq), orb_false_r.
  reflexivity.
Qed.

Lemma held_key_present env processor S x reads t :
  In x S -> has_key (x, processor) (t ++ rows_of env processor S reads) = true.
Proof.
  intros HS. apply has_key_In. rewrite map_app, rows_of_keys.
  apply in_or_app. right. apply in_map_iff. exists x. split; [reflexivity | exact HS].
Qed.

Lemma held_lock_refused processor S T x env s s1 env' u :
  DatabaseMutex.try_lock processor S env s = (Return true, s1) ->
  In x S -> In x T ->
  table u = table s1 ->
  answers_next env' u (Nat.max 1 (length T)) ->
  fst (DatabaseMutex.try_lock processor T env' u) = Return false /\
  exists added q rest,
    T = map row_path added ++ q :: rest /\
    table (snd (DatabaseMutex.try_lock processor T env' u)) = table u ++ added /\
    has_key (q, processor) (table u ++ added) = true /\
    ~ In x (map row_path added).
Proof.
  intros Hlock HS HT Hu Hq.
  destruct (try_lock_success _ _ _ _ Hlock) as [_ [reads Hs1]].
  assert (Hc : claimable processor T (table u) = false).
  { rewrite Hu, Hs1. exact (claimable_overlap env processor S T reads (table s) x HS HT). }
  destruct (@try_lock_refused processor T env' u Hq Hc)
    as (Hout & added & q & rest & HT' & Ht & Hk & Hfresh).
  split; [exact Hout |].
  exists added, q, rest. repeat split; try assumption.
  intros Hin. apply in_map_iff in Hin. destruct Hin as (row & Hrow & Hin).
  rewrite Forall_forall in Hfresh. destruct (Hfresh row Hin) as (_ & _ & Hfree).
  rewrite Hrow, Hu, Hs1, (@held_key_present env processor S x reads (table s) HS) in Hfree.
  discriminate.
Qed.



Example held_lock_refusal_leaves_a_row :
  let s1 := snd (DatabaseMutex.try_lock "proc_a" ["/a/b/c"; "/a/b/d"] never_busy idle) in
  let other := mkEnv 17 (fun _ => 0) (fun _ => false) (fun _ => Return tt) in
  let r := DatabaseMutex.try_lock "proc_a" ["/x"; "/a/b/d"] other s1 in
  fst r = Return false /\
  map row_path (table s1) = ["/a/b/c"; "/a/b/d"] /\
  map row_path (table (snd r)) = ["/a/b/c"; "/a/b/d"; "/x"].
Proof. repeat split; reflexivity. Qed.

(** The rows of one processor do not stand in the way of another: after a
    successful [try_lock p S], a [try_lock] of a processor other than [p]
    returns what it would have returned before, whatever its paths, when
    the store answers the statements of the attempt: true when the request
    is claimable and names a path, false otherwise. *)
Theorem other_processor_is_not_excluded p q S T env s s1 env' u u' :
  DatabaseMutex.try_lock p S env s = (Return true, s1) ->
  q <> p ->
  table u = table s -> table u' = table s1 ->
  answers_next env' u (Nat.max 1 (length T)) ->
  answers_next env' u' (Nat.max 1 (length T)) ->
  fst (DatabaseMutex.try_lock q T env' u') = fst (DatabaseMutex.try_lock q T env' u) /\
  fst (DatabaseMutex.try_lock q T env' u') =
    Return (match T with
            | [] => false
            | _ => claimable q T (table s)
            end).
Proof.
  intros Hlock Hq Hu Hu' Hr Hr'.
  destruct (try_lock_success _ _ _ _ Hlock) as [_ [reads Hs1]].
  destruct (@try_lock_run q T env' u Hr) as [Hrun _].
  destruct (@try_lock_run q T env' u' Hr') as [Hrun' _].
  rewrite Hu', Hs1, (claimable_other_processor env S T reads (table s) Hq) in Hrun'.
  rewrite Hu in Hrun.
  rewrite Hrun, Hrun'. split; reflexivity.
Qed.

Lemma other_processor_is_not_excluded_witness :
  let s1 := snd (DatabaseMutex.try_lock "proc_a" ["/a/b/c"] never_busy idle) in
  fst (DatabaseMutex.try_lock "proc_b" ["/a/b/c"] never_busy s1) =
    fst (DatabaseMutex.try_lock "proc_b" ["/a/b/c"] never_busy idle) /\
  fst (DatabaseMutex.try_lock "proc_b" ["/a/b/c"] never_busy s1) =
    Return (claimable "proc_b" ["/a/b/c"] (table idle)).
Proof.
  intros s1.
  apply (@other_processor_is_not_excluded "proc_a" "proc_b" ["/a/b/c"] ["/a/b/c"]
           never_busy idle s1 never_busy idle s1).
  - reflexivity.
  - discriminate.
  - reflexivity.
  - reflexivity.
  - intros k _. reflexivity.
  - intros k _. reflexivity.
Defined.

(** A path listed twice can never be locked: the second row violates the
    key by itself, so [try_lock] never returns true, on any table, an empty
    one included, and whatever the store answers.  With a store that
    answers the statements of the attempt it returns false, and the rows
    of the paths before the first one refused are left in the table. *)
Theorem try_lock_rejects_repeated_path processor paths env s :
  ~ NoDup paths ->
  let r := DatabaseMutex.try_lock processor paths env s in
  fst r <> Return true /\
  (answers_next env s (Nat.max 1 (length paths)) ->
   fst r = Return false /\
   exists added q rest,
     paths = map row_path added ++ q :: rest /\
     table (snd r) = table s ++ added /\
     has_key (q, processor) (table s ++ added) = true).
Proof.
  intros Hdup r. subst r.
  assert (Hc : claimable processor paths (table s) = false).
  { destruct (claimable processor paths (table s)) eqn:E; [| reflexivity].
    apply claimable_spec in E. destruct E as [Hnd _]. contradiction. }
  split.
  - intros Htrue.
    destruct (DatabaseMutex.try_lock processor paths env s) as [o s1] eqn:E.
    simpl in Htrue. subst o.
    destruct (try_lock_success _ _ _ _ E) as [Hc' _]. congruence.
  - intros Hq.
    destruct (@try_lock_refused processor paths env s Hq Hc)
      as (Hout & added & q & rest & Hp & Ht & Hk & _).
    split; [exact Hout |]. exists added, q, rest. repeat split; assumption.
Qed.

Lemma try_lock_rejects_repeated_path_witness :
  let r := DatabaseMutex.try_lock "p" ["a"; "b"; "a"] never_busy idle in
  ~ NoDup ["a"; "b"; "a"] /\
  fst r <> Return true /\
  (answers_next never_busy idle (Nat.max 1 (length ["a"; "b"; "a"])) ->
   fst r = Return false /\
   exists added q rest,
     ["a"; "b"; "a"] = map row_path added ++ q :: rest /\
     table (snd r) = table idle ++ added /\
     has_key (q, "p") (table idle ++ added) = true).
Proof.
  intros r.
  assert (H : ~ NoDup ["a"; "b"; "a"]).
  { intros H. inversion H as [| ? ? Hin _]; subst. apply Hin. simpl. auto. }
  split; [exact H |].
  exact (@try_lock_rejects_repeated_path "p" ["a"; "b"; "a"] never_busy idle H).
Defined.

Example repeated_path_leaves_rows :
  let r := DatabaseMutex.try_lock "p" ["a"; "b"; "a"] never_busy idle in
  fst r = Return false /\ map row_path (table (snd r)) = ["a"; "b"].
Proof. split; reflexivity. Qed.

(** ** DatabaseMutex.unlock: repeated and unmatched calls *)

Lemma filter_idempotent {X} (f : X -> bool) (l : list X) :
  filter f (filter f l) = filter f l.
Proof.
  apply filter_keeps_all. intros x Hx. apply filter_In in Hx. tauto.
Qed.

(** [unlock] raises nothing when there is nothing to release: a second
    [unlock] with the same arguments returns as the first did and leaves
    the table of the first, and an [unlock] that matches no row leaves the
    table as it is. *)
Theorem unlock_is_idempotent processor paths env s :
  responsive env s = true ->
  let first := DatabaseMutex.unlock processor paths env s in
  responsive env (snd first) = true ->
  let second := DatabaseMutex.unlock processor paths env (snd first) in
  fst first = Return tt /\ fst second = Return tt /\
  table (snd second) = table (snd first) /\
  ((forall row, In row (table s) ->
      released processor paths (getpid env) row = false) ->
   table (snd first) = table s).
Proof.
  intros Hr first Hr' second.
  destruct (unlock_run processor paths env s Hr) as [Ho Ht].
  destruct (unlock_run processor paths env (snd first) Hr') as [Ho' Ht'].
  fold first in Ho, Ht. fold second in Ho', Ht'.
  repeat split; try assumption.
  - rewrite Ht', Ht. apply filter_idempotent.
  - intros Hnone. rewrite Ht. apply filter_keeps_all.
    intros row Hrow. now rewrite (Hnone row Hrow).
Qed.

Lemma unlock_is_idempotent_witness :
  let s := set_table [foreign_row; mkRow "doc/42" "stage_y" 4242 1] idle in
  let first := DatabaseMutex.unlock "stage_y" ["doc/42"] never_busy s in
  let second := DatabaseMutex.unlock "stage_y" ["doc/42"] never_busy (snd first) in
  fst first = Return tt /\ fst second = Return tt /\
  table (snd second) = table (snd first) /\
  ((forall row, In row (table s) ->
      released "stage_y" ["doc/42"] (getpid never_busy) row = false) ->
   table (snd first) = table s).
Proof.
  intros s first.
  apply (@unlock_is_idempotent "stage_y" ["doc/42"] never_busy s).
  - reflexivity.
  - reflexivity.
Defined.

(** ** Locks left behind by another process *)

Lemma rows_of_not_released env processor paths pid : forall reads,
  pid <> getpid env ->
  forall row, In row (rows_of env processor paths reads) ->
              released processor paths pid row = false.
Proof.
  induction paths as [| p paths IH]; intros reads Hpid row Hrow; simpl in Hrow.
  - contradiction.
  - destruct Hrow as [<- | Hrow].
    + unfold released; simpl.
      assert (E : (getpid env =? pid) = false) by (apply Z.eqb_neq; congruence).
      rewrite E. now rewrite andb_false_r.
    + destruct (released processor (p :: paths) pid row) eqn:Er; [| reflexivity].
      apply released_spec in Er. destruct Er as (_ & _ & Hp).
      pose proof (rows_of_owner env processor paths (S reads)) as Hown.
      rewrite Forall_forall in Hown. destruct (Hown row Hrow) as [_ Hrp].
      congruence.
Qed.

(** The rows of a process that locked and went away stay when a process
    with another pid unlocks the same processor and paths, and keep that
    process from locking them; after [clear_locks 0] it can lock them. *)
Theorem stale_lock_needs_clear_locks processor paths env s s1 env' :
  DatabaseMutex.try_lock processor paths env s = (Return true, s1) ->
  paths <> [] ->
  getpid env' <> getpid env ->
  quiet env' ->
  let s2 := snd (DatabaseMutex.unlock processor paths env' s1) in
  let s3 := snd (DatabaseMutex.clear_locks 0 env' s2) in
  table s2 = table s1 /\
  fst (DatabaseMutex.try_lock processor paths env' s2) = Return false /\
  table s3 = [] /\
  fst (DatabaseMutex.try_lock processor paths env' s3) = Return true.
Proof.
  intros Hlock Hne Hpid Hq s2 s3.
  destruct (try_lock_success _ _ _ _ Hlock) as [Hc [reads Hs1]].
  pose proof (proj1 (claimable_spec _ _ _) Hc) as [Hnd Hfree].
  assert (Hs2 : table s2 = table s1).
  { subst s2.
    destruct (unlock_run processor paths env' s1 (quiet_responsive s1 Hq)) as [_ ->].
    apply filter_keeps_all. intros row Hrow. apply negb_true_iff.
    rewrite Hs1 in Hrow. apply in_app_or in Hrow. destruct Hrow as [Hrow | Hrow].
    - destruct (released processor paths (getpid env') row) eqn:Er; [| reflexivity].
      apply released_spec in Er. destruct Er as (Hp & Hpath & _).
      exfalso. apply (Hfree _ Hpath). apply in_map_iff.
      exists row. split; [| exact Hrow]. unfold row_key. now rewrite Hp.
    - now apply (rows_of_not_released env processor paths reads Hpid). }
  assert (Hs3 : table s3 = []).
  { subst s3.
    now destruct (@clear_locks_zero env' s2 (quiet_responsive s2 Hq)) as [_ Ht]. }
  split; [exact Hs2 |]. split; [| split; [exact Hs3 |]].
  - destruct paths as [| x paths']; [contradiction |].
    destruct (@held_lock_refused processor (x :: paths') (x :: paths') x env s s1 env' s2)
      as [Hout _]; auto using quiet_answers; simpl; auto.
  - destruct (@try_lock_run processor paths env' s3 (@quiet_answers env' s3 _ Hq))
      as [Hrun _].
    rewrite Hs3 in Hrun.
    assert (Hempty : claimable processor paths [] = true).
    { apply claimable_spec. split; [exact Hnd | intros p _ []]. }
    rewrite Hempty in Hrun. rewrite Hrun.
    destruct paths; [contradiction | reflexivity].
Qed.

Lemma stale_lock_needs_clear_locks_witness :
  let s1 := snd (DatabaseMutex.try_lock "stage_x" ["doc/42"] never_busy idle) in
  let restarted := mkEnv 17 (fun _ => 0) (fun _ => false) (fun _ => Return tt) in
  let s2 := snd (DatabaseMutex.unlock "stage_x" ["doc/42"] restarted s1) in
  let s3 := snd (DatabaseMutex.clear_locks 0 restarted s2) in
  table s2 = table s1 /\
  fst (DatabaseMutex.try_lock "stage_x" ["doc/42"] restarted s2) = Return false /\
  table s3 = [] /\
  fst (DatabaseMutex.try_lock "stage_x" ["doc/42"] restarted s3) = Return true.
Proof.
  intros s1 restarted.
  apply (@stale_lock_needs_clear_locks "stage_x" ["doc/42"] never_busy idle s1 restarted).
  - reflexivity.
  - discriminate.
  - simpl. lia.
  - intros k. reflexivity.
Defined.

(** ** The scoped lock as a whole *)

Lemma with_database_lock (B : Type) processor paths (body : bool -> M B) env s :
  with_ (DatabaseMutex.lock processor paths) body env s =
  match DatabaseMutex.try_lock processor paths env s with
  | (Raise e, s1) => (Raise e, s1)
  | (Return success, s1) =>
      match body success env s1 with
      | (o, s2) =>
          if success then
            match DatabaseMutex.unlock processor paths env s2 with
            | (Return _, s3) => (returned o, s3)
            | (Raise e, s3) => (Raise e, s3)
            end
          else (returned o, s2)
      end
  end.
Proof.
  unfold with_, cm_enter, DatabaseMutex.lock.
  destruct (DatabaseMutex.try_lock processor paths env s) as [[success | e] s1];
    [| reflexivity].
  destruct (body success env s1) as [[b | e] s2]; unfold cm_exit;
    destruct success; simpl;
    try destruct (DatabaseMutex.unlock processor paths env s2) as [[[] | e'] s3];
    reflexivity.
Qed.

(** With a store that answers and a body that leaves the table alone, the
    [with] statement over [DatabaseMutex.lock] hands the body true exactly
    when the request names a path and is claimable, and ends as the body
    ended, by a value or by an exception.  When it handed true, it leaves
    the table as it found it.  When it handed false, nothing is unlocked:
    the table is the one the refused [try_lock] left, which holds the rows
    of the paths before the first one refused. *)
Theorem scoped_lock_restores_table (B : Type) processor paths (body : bool -> M B) env s :
  quiet env ->
  (forall b u, table (snd (body b env u)) = table u) ->
  let r := with_ (DatabaseMutex.lock processor paths) body env s in
  let acquired := match paths with
                  | [] => false
                  | _ => claimable processor paths (table s)
                  end in
  (exists s1,
     DatabaseMutex.try_lock processor paths env s = (Return acquired, s1) /\
     fst r = returned (fst (body acquired env s1))) /\
  (acquired = true -> table (snd r) = table s) /\
  (acquired = false ->
   table (snd r) = table (snd (DatabaseMutex.try_lock processor paths env s)) /\
   table (snd r) =
     fst (insert_rows (rows_of env processor paths (clock_reads s)) (table s)) /\
   (paths = [] -> table (snd r) = table s)).
Proof.
  intros Hq Hbody r acquired. subst r. rewrite with_database_lock.
  destruct (@try_lock_run processor paths env s (@quiet_answers env s _ Hq))
    as [Hout Htab].
  fold acquired in Hout.
  destruct (DatabaseMutex.try_lock processor paths env s) as [o s1] eqn:Elock.
  cbn [fst snd] in Hout, Htab. subst o.
  destruct acquired eqn:Ea.
  - pose proof (Hbody true s1) as Hb.
    destruct (body true env s1) as [ob s2] eqn:Eb. cbn [fst snd] in Hb.
    destruct (unlock_run processor paths env s2 (quiet_responsive s2 Hq)) as [Ho Ht].
    destruct (DatabaseMutex.unlock processor paths env s2) as [ou s3].
    cbn [fst snd] in Ho, Ht. subst ou. cbn [fst snd].
    split; [exists s1; rewrite Eb; split; reflexivity |].
    split; [| discriminate].
    intros _.
    destruct (try_lock_success _ _ _ _ Elock) as [Hc [reads Hs1]].
    rewrite Ht, Hb, Hs1. now apply released_rows_filtered.
  - pose proof (Hbody false s1) as Hb.
    destruct (body false env s1) as [ob s2] eqn:Eb. cbn [fst snd] in Hb. cbn [fst snd].
    split; [exists s1; rewrite Eb; split; reflexivity |].
    split; [discriminate |].
    intros _. split; [exact Hb |]. split; [congruence |].
    intros ->. rewrite Hb, Htab. reflexivity.
Qed.

Lemma scoped_lock_restores_table_witness :
  let s := set_table [foreign_row] idle in
  let paths := ["doc/42"; "doc/43"] in
  let body := fun locked : bool => @raise unit (OtherError "body") in
  let r := with_ (DatabaseMutex.lock "stage_y" paths) body never_busy s in
  let acquired := match paths with
                  | [] => false
                  | _ => claimable "stage_y" paths (table s)
                  end in
  (quiet never_busy /\ acquired = true) /\
  (exists s1,
     DatabaseMutex.try_lock "stage_y" paths never_busy s = (Return acquired, s1) /\
     fst r = returned (fst (body acquired never_busy s1))) /\
  (acquired = true -> table (snd r) = table s) /\
  (acquired = false ->
   table (snd r) = table (snd (DatabaseMutex.try_lock "stage_y" paths never_busy s)) /\
   table (snd r) =
     fst (insert_rows (rows_of never_busy "stage_y" paths (clock_reads s)) (table s)) /\
   (paths = [] -> table (snd r) = table s)).
Proof.
  intros s paths body r acquired.
  split; [split; [intros k; reflexivity | reflexivity] |].
  apply (@scoped_lock_restores_table unit "stage_y" paths body never_busy s).
  - intros k. reflexivity.
  - intros b u. reflexivity.
Defined.

Example scoped_lock_refused_leaves_a_row :
  let holder := snd (DatabaseMutex.try_lock "p" ["B"] never_busy idle) in
  let body := fun locked : bool => ret locked in
  let r := with_ (DatabaseMutex.lock "p" ["A"; "B"; "C"]) body never_busy holder in
  fst r = Return (Some false) /\
  map row_path (table holder) = ["B"] /\
  map row_path (table (snd r)) = ["B"; "A"].
Proof. repeat split; reflexivity. Qed.

(** ** DummyMutex *)

(** DummyMutex grants every request and touches nothing: [try_lock]
    returns true and [unlock] returns, both in the state they were called
    in, and the [with] statement over [lock] is the body applied to true,
    a raising body included. *)
Theorem dummy_mutex_is_transparent (B : Type) processor paths (body : bool -> M B) env s :
  call_try_lock DummyMutexClass processor paths env s = (Return true, s) /\
  call_unlock DummyMutexClass processor paths env s = (Return tt, s) /\
  call_lock DummyMutexClass processor paths body env s =
    (returned (fst (body true env s)), snd (body true env s)).
Proof.
  repeat split.
  unfold call_lock; simpl. unfold with_, cm_enter, DummyMutex.lock, cm_exit.
  destruct (body true env s) as [[b | e] s2]; reflexivity.
Qed.

(** ** FileMutex: leaving the scope *)

(** Once the advisory lock is acquired, it is released when the body is
    left, by a value or by an exception that is not one of portalocker's
    lock exceptions, and the [with] statement ends as the body ended; if
    the body holds the same locks at its end as at its start, so does the
    process after the statement as before it. *)
Theorem file_lock_releases_on_exit (B : Type) processor path (body : bool -> M B)
    env s u o s2 :
  os_lock env path = Return u ->
  let s1 := set_held (path :: held s) (log (EvAcquire path) s) in
  body true env s1 = (o, s2) ->
  (forall e, o = Raise e -> FileMutex.is_lock_failure e = false) ->
  let r := with_ (FileMutex.lock processor [path]) body env s in
  fst r = returned o /\
  held (snd r) = FileMutex.drop_first path (held s2) /\
  trace (snd r) = trace s2 ++ [EvRelease path] /\
  (held s2 = held s1 -> held (snd r) = held s).
Proof.
  intros Hos s1 Hbody Hexc r. subst r s1.
  unfold with_, cm_enter, FileMutex.lock, FileMutex.portalocker_acquire. simpl.
  rewrite Hos. simpl in Hbody |- *. rewrite Hbody.
  destruct o as [b | e].
  - unfold cm_exit, FileMutex.portalocker_release. simpl.
    repeat split. intros Hh. rewrite Hh. simpl. now rewrite String.eqb_refl.
  - unfold cm_exit, FileMutex.portalocker_release. simpl.
    rewrite (Hexc e eq_refl). simpl.
    repeat split. intros Hh. rewrite Hh. simpl. now rewrite String.eqb_refl.
Qed.

Lemma file_lock_releases_on_exit_witness :
  let body := fun locked : bool => @raise unit (OtherError "body") in
  let r := with_ (FileMutex.lock "p" ["a"]) body never_busy idle in
  let s1 := set_held ("a" :: held idle) (log (EvAcquire "a") idle) in
  fst r = returned (Raise (OtherError "body")) /\
  held (snd r) = FileMutex.drop_first "a" (held s1) /\
  trace (snd r) = trace s1 ++ [EvRelease "a"] /\
  (held s1 = held s1 -> held (snd r) = held idle).
Proof.
  intros body.
  apply (@file_lock_releases_on_exit unit "p" "a" body never_busy idle tt
           (Raise (OtherError "body"))
           (set_held ("a" :: held idle) (log (EvAcquire "a") idle))).
  - reflexivity.
  - reflexivity.
  - intros e He. inversion He. reflexivity.
Defined.

(** When the file is locked by somebody else, the body runs with false in
    the state the failed attempt left, nothing is released afterwards, and
    the [with] statement ends as the body ended. *)
Theorem file_lock_not_acquired_runs_body (B : Type) processor path (body : bool -> M B)
    env s e :
  os_lock env path = Raise e ->
  FileMutex.is_lock_failure e = true ->
  let s1 := log (EvAcquire path) s in
  with_ (FileMutex.lock processor [path]) body env s =
  (returned (fst (body false env s1)), snd (body false env s1)).
Proof.
  intros Hos He s1. subst s1.
  unfold with_, cm_enter, FileMutex.lock, FileMutex.portalocker_acquire. simpl.
  rewrite Hos, He. unfold FileMutex.yield_false.
  destruct (body false env (log (EvAcquire path) s)) as [[b | e'] s2];
    unfold cm_exit; reflexivity.
Qed.

Lemma file_lock_not_acquired_runs_body_witness :
  let env := mkEnv 4242 (fun _ => 0) (fun _ => false) (fun _ => Raise AlreadyLocked) in
  let s1 := log (EvAcquire "a") idle in
  with_ (FileMutex.lock "p" ["a"]) (fun locked => ret locked) env idle =
  (returned (fst (ret false env s1)), snd (ret false env s1)).
Proof.
  intros env.
  apply (@file_lock_not_acquired_runs_body bool "p" "a" (fun locked => ret locked)
           env idle AlreadyLocked).
  - reflexivity.
  - reflexivity.
Defined.

(** A body that raises [AlreadyLocked] or [LockException] while the lock
    is held does not get its exception through: the handler around the
    [yield] catches it and yields again, so the [with] statement raises the
    runtime error of the context manager instead; the lock is released. *)
Theorem file_lock_masks_lock_exceptions_of_body (B : Type) processor path
    (body : bool -> M B) env s u e s2 :
  os_lock env path = Return u ->
  body true env (set_held (path :: held s) (log (EvAcquire path) s)) = (Raise e, s2) ->
  FileMutex.is_lock_failure e = true ->
  let r := with_ (FileMutex.lock processor [path]) body env s in
  fst r = Raise (RuntimeError "generator didn't stop after throw()") /\
  held (snd r) = FileMutex.drop_first path (held s2) /\
  trace (snd r) = trace s2 ++ [EvRelease path].
Proof.
  intros Hos Hbody He r. subst r.
  unfold with_, cm_enter, FileMutex.lock, FileMutex.portalocker_acquire. simpl.
  rewrite Hos. simpl in Hbody |- *. rewrite Hbody.
  unfold cm_exit, FileMutex.portalocker_release. simpl. rewrite He.
  unfold FileMutex.yield_false. simpl. repeat split.
Qed.

Lemma file_lock_masks_lock_exceptions_of_body_witness :
  let body := fun locked : bool => @raise unit AlreadyLocked in
  let s1 := set_held ("a" :: held idle) (log (EvAcquire "a") idle) in
  let r := with_ (FileMutex.lock "p" ["a"]) body never_busy idle in
  fst r = Raise (RuntimeError "generator didn't stop after throw()") /\
  held (snd r) = FileMutex.drop_first "a" (held s1) /\
  trace (snd r) = trace s1 ++ [EvRelease "a"].
Proof.
  intros body s1.
  apply (@file_lock_masks_lock_exceptions_of_body unit "p" "a" body never_busy idle
           tt AlreadyLocked s1).
  - reflexivity.
  - reflexivity.
  - reflexivity.
Defined.

(** * Properties of the dewarping batch and of the page *)

(** ** Strings *)

Lemma tuple_eqb_eq t1 : forall t2, PyStr.tuple_eqb t1 t2 = true <-> t1 = t2.
Proof.
  induction t1 as [| x t1 IH]; intros [| y t2]; simpl;
    try (split; [discriminate | discriminate]); [tauto |].
  rewrite andb_true_iff, String.eqb_eq, IH. split.
  - intros [-> ->]. reflexivity.
  - intros H. inversion H. auto.
Qed.

Lemma split_without_separator sep s :
  ~ has_char sep s -> PyStr.split sep s = [s].
Proof.
  unfold has_char. induction s as [| c s IH]; simpl; intros H; [reflexivity |].
  destruct (Ascii.eqb c sep) eqn:E.
  - apply Ascii.eqb_eq in E. exfalso. apply H. now left.
  - rewrite IH by (intros Hin; apply H; now right). reflexivity.
Qed.

Lemma split_first_part sep s rest :
  ~ has_char sep s ->
  PyStr.split sep (s ++ String sep rest) = s :: PyStr.split sep rest.
Proof.
  unfold has_char. induction s as [| c s IH]; simpl; intros H.
  - now rewrite Ascii.eqb_refl.
  - destruct (Ascii.eqb c sep) eqn:E.
    + apply Ascii.eqb_eq in E. exfalso. apply H. now left.
    + rewrite IH by (intros Hin; apply H; now right). reflexivity.
Qed.

Lemma split_concat sep items :
  items <> [] ->
  (forall item, In item items -> ~ has_char sep item) ->
  PyStr.split sep (String.concat (String sep "") items) = items.
Proof.
  induction items as [| item items IH]; intros Hne Hno; [contradiction |].
  destruct items as [| item' items].
  - simpl. apply split_without_separator. apply Hno. now left.
  - change (String.concat (String sep "") (item :: item' :: items))
      with (item ++ String sep (String.concat (String sep "") (item' :: items)))%string.
    rewrite split_first_part by (apply Hno; now left).
    rewrite IH; [reflexivity | discriminate |].
    intros x Hx. apply Hno. now right.
Qed.

Lemma lstrip_spaces l s : all_space l = true -> PyStr.lstrip (l ++ s) = PyStr.lstrip s.
Proof.
  unfold all_space. induction l as [| c l IH]; simpl; intros H; [reflexivity |].
  apply andb_true_iff in H. destruct H as [Hc Hl]. rewrite Hc. now apply IH.
Qed.

Lemma rstrip_spaces r : all_space r = true -> PyStr.rstrip r = "".
Proof.
  unfold all_space. induction r as [| c r IH]; simpl; intros H; [reflexivity |].
  apply andb_true_iff in H. destruct H as [Hc Hr]. rewrite (IH Hr). now rewrite Hc.
Qed.

Lemma rstrip_app_spaces s r :
  all_space r = true -> PyStr.rstrip (s ++ r) = PyStr.rstrip s.
Proof.
  intros Hr. induction s as [| c s IH]; simpl.
  - now apply rstrip_spaces.
  - now rewrite IH.
Qed.

Lemma strip_padding l s r :
  all_space l = true -> all_space r = true ->
  PyStr.strip (l ++ s ++ r) = PyStr.strip s.
Proof.
  intros Hl Hr. unfold PyStr.strip. rewrite lstrip_spaces by exact Hl.
  induction s as [| c s IH]; simpl.
  - assert (H : PyStr.lstrip r = "").
    { clear Hl. unfold all_space in Hr.
      induction r as [| d r IHr]; simpl in *; [reflexivity |].
      apply andb_true_iff in Hr. destruct Hr as [Hd Hr]. rewrite Hd. now apply IHr. }
    now rewrite H.
  - destruct (PyStr.is_space c); [exact IH |].
    change (String c (s ++ r)%string) with (String c s ++ r)%string.
    now apply rstrip_app_spaces.
Qed.

(** ** RegionsFilter *)

Lemma regions_filter_call_spec spec path :
  RegionsFilter.call (RegionsFilter.init spec) path = true <->
  exists item, In item (PyStr.split ","%char spec) /\
               PyStr.split "/"%char (PyStr.strip item) = firstn 2 path.
Proof.
  unfold RegionsFilter.call, RegionsFilter.init.
  rewrite existsb_exists. split.
  - intros [t [Ht Heq]]. apply in_map_iff in Ht. destruct Ht as [item [<- Hitem]].
    apply tuple_eqb_eq in Heq. eauto.
  - intros [item [Hitem Heq]]. exists (firstn 2 path). split.
    + apply in_map_iff. exists item. auto.
    + now apply tuple_eqb_eq.
Qed.

Lemma Forall2_In_right {X Y} (R : X -> Y -> Prop) l1 l2 y :
  Forall2 R l1 l2 -> In y l2 -> exists x, In x l1 /\ R x y.
Proof.
  induction 1 as [| x y' l1 l2 Hxy _ IH]; simpl; [intros [] |].
  intros [<- | Hy]; [exists x; auto |].
  destruct (IH Hy) as [x' [Hx' Hr]]. exists x'. auto.
Qed.

Lemma Forall2_In_left {X Y} (R : X -> Y -> Prop) l1 l2 x :
  Forall2 R l1 l2 -> In x l1 -> exists y, In y l2 /\ R x y.
Proof.
  induction 1 as [| x' y l1 l2 Hxy _ IH]; simpl; [intros [] |].
  intros [<- | Hx]; [exists y; auto |].
  destruct (IH Hx) as [y' [Hy' Hr]]. exists y'. auto.
Qed.

(** The filter reads its option as a list of items between commas and
    ignores the white space around each item: a path is accepted exactly
    when the first two of its components are the components, between
    slashes, of one of the items. *)
Theorem regions_filter_reads_items items padded path :
  items <> [] ->
  Forall2 (fun item p => exists l r, all_space l = true /\ all_space r = true /\
                                     p = (l ++ item ++ r)%string) items padded ->
  (forall p, In p padded -> ~ has_char ","%char p) ->
  (RegionsFilter.call (RegionsFilter.init (String.concat "," padded)) path = true <->
   exists item, In item items /\
                PyStr.split "/"%char (PyStr.strip item) = firstn 2 path).
Proof.
  intros Hne Hpad Hcomma.
  assert (Hne' : padded <> []).
  { intros ->. inversion Hpad. subst. contradiction. }
  rewrite regions_filter_call_spec, (@split_concat _ _ Hne' Hcomma). split.
  - intros [p [Hp Heq]].
    destruct (@Forall2_In_right _ _ _ _ _ _ Hpad Hp) as [item [Hitem (l & r & Hl & Hr & ->)]].
    exists item. split; [exact Hitem |]. now rewrite <- (@strip_padding l item r Hl Hr).
  - intros [item [Hitem Heq]].
    destruct (@Forall2_In_left _ _ _ _ _ _ Hpad Hitem) as [p [Hp (l & r & Hl & Hr & ->)]].
    exists (l ++ item ++ r)%string. split; [exact Hp |].
    now rewrite (@strip_padding l item r Hl Hr).
Qed.

Lemma regions_filter_reads_items_witness :
  RegionsFilter.call
    (RegionsFilter.init (String.concat "," ["regions/TEXT"; "  regions/TABULAR "]))
    ["regions"; "TABULAR"; "3"; "7"] = true <->
  exists item, In item ["regions/TEXT"; "regions/TABULAR"] /\
               PyStr.split "/"%char (PyStr.strip item) =
               firstn 2 ["regions"; "TABULAR"; "3"; "7"].
Proof.
  apply (@regions_filter_reads_items
           ["regions/TEXT"; "regions/TABULAR"]
           ["regions/TEXT"; "  regions/TABULAR "]
           ["regions"; "TABULAR"; "3"; "7"]).
  - discriminate.
  - constructor; [exists "", ""; repeat split |].
    constructor; [exists "  ", " "; repeat split | constructor].
  - intros p [<- | [<- | []]]; unfold has_char; simpl;
      intros H; repeat (destruct H as [H | H]; [discriminate |]); exact H.
Defined.

(** With the default of [--regions] a path is accepted exactly when it
    starts with regions, TEXT or with regions, TABULAR; with an empty
    option no path of two or more components is accepted. *)
Theorem regions_filter_default path :
  (RegionsFilter.call (RegionsFilter.init default_regions) path = true <->
   firstn 2 path = ["regions"; "TEXT"] \/ firstn 2 path = ["regions"; "TABULAR"]) /\
  (RegionsFilter.call (RegionsFilter.init "") path = true <-> path = [""]).
Proof.
  split.
  - change (RegionsFilter.init default_regions)
      with [["regions"; "TEXT"]; ["regions"; "TABULAR"]].
    unfold RegionsFilter.call. cbn [existsb]. rewrite !orb_true_iff, !tuple_eqb_eq.
    intuition discriminate.
  - change (RegionsFilter.init "") with [[""]].
    unfold RegionsFilter.call. cbn [existsb]. rewrite orb_false_r, tuple_eqb_eq.
    destruct path as [| a [| b rest]]; simpl; split; intros H;
      try discriminate; try (inversion H; reflexivity).
Qed.

(** ** dewarped_contours *)

Lemma Subseq_nil_left {X} (l : list X) : Subseq [] l.
Proof. induction l as [| x l IH]; constructor. exact IH. Qed.

Section ContoursProperties.

Context {shapely : Shapely}.
Variable transformer : geometry -> outcome geometry.
Variable archive : list (string * string).

Lemma yields_app (a b : list Contours.item) :
  Contours.yields (a ++ b) = Contours.yields a ++ Contours.yields b.
Proof. unfold Contours.yields. apply flat_map_app. Qed.

Lemma losses_app (a b : list Contours.item) :
  Contours.losses (a ++ b) = Contours.losses a ++ Contours.losses b.
Proof. unfold Contours.losses. apply flat_map_app. Qed.

(** A member that is processed to the end gives one pair with the text of
    a geometry that is not empty, or one warning that it was lost. *)
Lemma contour_result name items :
  Contours.contour transformer archive name = Return items ->
  (Contours.losses items = [] /\
   exists g, Contours.yields items = [(name, wkt g)] /\ is_empty g = false) \/
  (Contours.yields items = [] /\ Contours.losses items = [name]).
Proof.
  unfold Contours.contour.
  destruct (wkt_loads (Contours.zip_read archive name)) as [warped | e]; [| discriminate].
  destruct (is_empty warped); [discriminate |].
  destruct (transformer warped) as [geom | e]; [| discriminate].
  intros H. inversion H; subst items; clear H.
  rewrite !yields_app, !losses_app.
  set (repaired := if is_valid geom then geom else buffer0 geom).
  assert (Hy1 : forall l : list Contours.item,
            (forall i, In i l -> match i with
                                 | Contours.Yield _ _ | Contours.LogLost _ _ => False
                                 | _ => True end) ->
            Contours.yields l = [] /\ Contours.losses l = []).
  { induction l as [| i l IH]; intros Hl; [split; reflexivity |].
    destruct (IH (fun j Hj => Hl j (or_intror Hj))) as [IH1 IH2].
    pose proof (Hl i (or_introl eq_refl)) as Hi.
    destruct i; try contradiction; simpl; auto. }
  destruct (Hy1 (if String.eqb (geom_type geom) "Polygon"
                    || String.eqb (geom_type geom) "LineString"
                 then [] else [Contours.LogWrongType name (geom_type geom)]))
    as [-> ->].
  { intros i Hi. destruct (_ || _); simpl in Hi; [contradiction |].
    destruct Hi as [<- | []]. exact I. }
  destruct (Hy1 (if is_valid geom then []
                 else if is_valid repaired then [] else [Contours.LogInvalid repaired]))
    as [-> ->].
  { intros i Hi. destruct (is_valid geom); simpl in Hi; [contradiction |].
    destruct (is_valid repaired); simpl in Hi; [contradiction |].
    destruct Hi as [<- | []]. exact I. }
  simpl. destruct (is_empty repaired) eqn:E; simpl.
  - right. split; reflexivity.
  - left. split; [reflexivity |]. exists repaired. split; [reflexivity | exact E].
Qed.

Lemma contours_of_app pre rest :
  Contours.contours_of transformer archive (pre ++ rest) =
  match Contours.contours_of transformer archive pre with
  | (items, Return _) =>
      (items ++ fst (Contours.contours_of transformer archive rest),
       snd (Contours.contours_of transformer archive rest))
  | (items, Raise e) => (items, Raise e)
  end.
Proof.
  induction pre as [| name pre IH]; simpl.
  - now destruct (Contours.contours_of transformer archive rest).
  - destruct (PyStr.endswith name ".wkt"); [| exact IH].
    destruct (Contours.contour transformer archive name) as [items | e]; [| reflexivity].
    rewrite IH.
    destruct (Contours.contours_of transformer archive pre) as [items' [[] | e]];
      [| reflexivity].
    now rewrite app_assoc.
Qed.

Lemma contours_of_names names :
  Subseq (map fst (Contours.yields (fst (Contours.contours_of transformer archive names))))
         (filter (fun n => PyStr.endswith n ".wkt") names) /\
  Forall (fun nd => exists g, snd nd = wkt g /\ is_empty g = false)
         (Contours.yields (fst (Contours.contours_of transformer archive names))).
Proof.
  induction names as [| name names [IHs IHf]]; simpl.
  - split; constructor.
  - destruct (PyStr.endswith name ".wkt"); [| split; assumption].
    destruct (Contours.contour transformer archive name) as [items | e] eqn:E.
    + destruct (Contours.contours_of transformer archive names) as [rest r].
      simpl in *. rewrite yields_app, map_app.
      destruct (contour_result _ E) as [[_ [g [-> Hg]]] | [-> _]]; simpl.
      * split; [now constructor |].
        constructor; [exists g; split; [reflexivity | exact Hg] | exact IHf].
      * split; [now constructor | exact IHf].
    + simpl. split; [apply Subseq_nil_left | constructor].
Qed.

Lemma contours_of_count names :
  snd (Contours.contours_of transformer archive names) = Return tt ->
  (length (Contours.yields (fst (Contours.contours_of transformer archive names)))
   + length (Contours.losses (fst (Contours.contours_of transformer archive names))))%nat
  = length (filter (fun n => PyStr.endswith n ".wkt") names).
Proof.
  induction names as [| name names IH]; simpl; [reflexivity |].
  destruct (PyStr.endswith name ".wkt"); [| exact IH].
  destruct (Contours.contour transformer archive name) as [items | e] eqn:E;
    [| discriminate].
  destruct (Contours.contours_of transformer archive names) as [rest r].
  simpl in *. intros Hr. specialize (IH Hr).
  rewrite yields_app, losses_app, !length_app.
  destruct (contour_result _ E) as [[-> [g [-> _]]] | [-> ->]]; simpl; lia.
Qed.

(** The items of a member that is processed to the end. *)
Lemma contour_items name items :
  Contours.contour transformer archive name = Return items ->
  exists warped geom,
    wkt_loads (Contours.zip_read archive name) = Return warped /\
    is_empty warped = false /\
    transformer warped = Return geom /\
    let repaired := if is_valid geom then geom else buffer0 geom in
    items =
      (if String.eqb (geom_type geom) "Polygon"
          || String.eqb (geom_type geom) "LineString"
       then [] else [Contours.LogWrongType name (geom_type geom)]) ++
      (if is_valid geom then []
       else if is_valid repaired then [] else [Contours.LogInvalid repaired]) ++
      (if is_empty repaired then [Contours.LogLost name warped]
       else [Contours.Yield name (wkt repaired)]).
Proof.
  unfold Contours.contour.
  destruct (wkt_loads (Contours.zip_read archive name)) as [warped | e]; [| discriminate].
  destruct (is_empty warped) eqn:Ew; [discriminate |].
  destruct (transformer warped) as [geom | e] eqn:Et; [| discriminate].
  intros H. inversion H; subst items; clear H.
  exists warped, geom. repeat split; assumption.
Qed.

(** When the loop runs to its end, the items of every member whose name
    ends in ".wkt" are among the items produced. *)
Lemma contours_of_members names :
  snd (Contours.contours_of transformer archive names) = Return tt ->
  forall name, In name names -> PyStr.endswith name ".wkt" = true ->
    exists items,
      Contours.contour transformer archive name = Return items /\
      incl items (fst (Contours.contours_of transformer archive names)).
Proof.
  induction names as [| n names IH]; simpl; [intros _ name [] |].
  destruct (PyStr.endswith n ".wkt") eqn:En.
  - destruct (Contours.contour transformer archive n) as [items | e] eqn:E;
      [| discriminate].
    destruct (Contours.contours_of transformer archive names) as [rest r].
    simpl in *. intros Hr name [<- | Hin] Hwkt.
    + exists items. split; [exact E |]. apply incl_appl, incl_refl.
    + destruct (IH Hr name Hin Hwkt) as (items' & E' & Hincl).
      exists items'. split; [exact E' |]. now apply incl_appr.
  - intros Hr name [<- | Hin] Hwkt; [congruence |].
    exact (IH Hr name Hin Hwkt).
Qed.

(** Every item produced is an item of a member whose name ends in
    ".wkt". *)
Lemma contours_of_origin names i :
  In i (fst (Contours.contours_of transformer archive names)) ->
  exists name items,
    In name names /\ PyStr.endswith name ".wkt" = true /\
    Contours.contour transformer archive name = Return items /\ In i items.
Proof.
  induction names as [| n names IH]; simpl; [intros [] |].
  destruct (PyStr.endswith n ".wkt") eqn:En.
  - destruct (Contours.contour transformer archive n) as [items | e] eqn:E;
      [| intros []].
    destruct (Contours.contours_of transformer archive names) as [rest r].
    simpl in *. intros Hin. apply in_app_or in Hin. destruct Hin as [Hin | Hin].
    + exists n, items. auto.
    + destruct (IH Hin) as (name & items' & H1 & H2 & H3 & H4).
      exists name, items'. auto.
  - intros Hin. destruct (IH Hin) as (name & items' & H1 & H2 & H3 & H4).
    exists name, items'. auto.
Qed.

(** The generator yields pairs only for members whose name ends in
    ".wkt", at most one for each and in the order of the archive, and the
    payload of each pair is the text of a geometry that is not empty. *)
Theorem dewarped_contours_yields :
  let items := fst (Contours.dewarped_contours transformer archive) in
  Subseq (map fst (Contours.yields items))
         (filter (fun n => PyStr.endswith n ".wkt") (Contours.namelist archive)) /\
  Forall (fun nd => exists g, snd nd = wkt g /\ is_empty g = false)
         (Contours.yields items).
Proof. apply contours_of_names. Qed.

(** When the generator runs to its end, every member whose name ends in
    ".wkt" has been loaded as a geometry that is not empty and transformed,
    and has given a pair with the text of the transformed geometry,
    repaired by [buffer(0)] when it was invalid, or, when that geometry is
    empty, a warning that the contour was lost; a type other than Polygon
    and LineString is logged as an error with the name, and so is a
    geometry that is still invalid after the repair.  Pairs and warnings
    together are as many as these members, and nothing else is produced:
    every pair, warning and error comes from such a member. *)
Theorem dewarped_contours_accounts_for_all :
  snd (Contours.dewarped_contours transformer archive) = Return tt ->
  let items := fst (Contours.dewarped_contours transformer archive) in
  (length (Contours.yields items) + length (Contours.losses items))%nat =
    length (filter (fun n => PyStr.endswith n ".wkt") (Contours.namelist archive)) /\
  (forall name,
     In name (Contours.namelist archive) -> PyStr.endswith name ".wkt" = true ->
     exists warped geom,
       wkt_loads (Contours.zip_read archive name) = Return warped /\
       is_empty warped = false /\
       transformer warped = Return geom /\
       let repaired := if is_valid geom then geom else buffer0 geom in
       (if is_empty repaired then In (Contours.LogLost name warped) items
        else In (Contours.Yield name (wkt repaired)) items) /\
       (String.eqb (geom_type geom) "Polygon"
        || String.eqb (geom_type geom) "LineString" = false ->
        In (Contours.LogWrongType name (geom_type geom)) items) /\
       (is_valid geom = false -> is_valid (buffer0 geom) = false ->
        In (Contours.LogInvalid (buffer0 geom)) items)) /\
  (forall i, In i items ->
     match i with
     | Contours.Yield name data =>
         In name (Contours.namelist archive) /\ PyStr.endswith name ".wkt" = true /\
         exists g, data = wkt g /\ is_empty g = false
     | Contours.LogLost name warped =>
         In name (Contours.namelist archive) /\ PyStr.endswith name ".wkt" = true /\
         wkt_loads (Contours.zip_read archive name) = Return warped
     | Contours.LogWrongType name type =>
         In name (Contours.namelist archive) /\ PyStr.endswith name ".wkt" = true /\
         type <> "Polygon" /\ type <> "LineString"
     | Contours.LogInvalid g => is_valid g = false
     end).
Proof.
  intros Hend items. split; [| split].
  - now apply contours_of_count.
  - intros name Hin Hwkt.
    destruct (contours_of_members _ Hend name Hin Hwkt) as (its & E & Hincl).
    destruct (contour_items _ E) as (warped & geom & Hload & Hw & Ht & Hits).
    exists warped, geom. split; [exact Hload |]. split; [exact Hw |].
    split; [exact Ht |]. cbv zeta in *.
    assert (Hall : forall i, In i its -> In i items) by exact Hincl.
    split; [| split].
    + destruct (is_empty (if is_valid geom then geom else buffer0 geom));
        apply Hall; rewrite Hits; apply in_or_app; right; apply in_or_app; right;
        left; reflexivity.
    + intros Hty. apply Hall. rewrite Hits, Hty. left. reflexivity.
    + intros Hv Hb. apply Hall. rewrite Hits. apply in_or_app; right.
      apply in_or_app; left. rewrite Hv, Hb. left. reflexivity.
  - intros i Hi.
    destruct (contours_of_origin _ _ Hi) as (name & its & Hin & Hwkt & E & Hi').
    destruct (contour_items _ E) as (warped & geom & Hload & Hw & Ht & Hits).
    cbv zeta in Hits. rewrite Hits in Hi'.
    apply in_app_or in Hi'. destruct Hi' as [Hi' | Hi'];
      [| apply in_app_or in Hi'; destruct Hi' as [Hi' | Hi']].
    + destruct (String.eqb (geom_type geom) "Polygon") eqn:E1; [destruct Hi' |].
      destruct (String.eqb (geom_type geom) "LineString") eqn:E2; [destruct Hi' |].
      destruct Hi' as [<- | []].
      apply String.eqb_neq in E1, E2. auto.
    + destruct (is_valid geom) eqn:Ev; [destruct Hi' |].
      destruct (is_valid (buffer0 geom)) eqn:Eb; [destruct Hi' |].
      destruct Hi' as [<- | []]. exact Eb.
    + destruct (is_empty (if is_valid geom then geom else buffer0 geom)) eqn:Ee;
        destruct Hi' as [<- | []].
      * auto.
      * split; [exact Hin |]. split; [exact Hwkt |]. eexists. split; [reflexivity | exact Ee].
Qed.

(** A member that holds an empty geometry stops the generator with the
    assertion error: what the members before it gave has been produced,
    the members after it are not read. *)
Theorem dewarped_contours_stops_at_empty_contour pre name post warped items :
  Contours.namelist archive = pre ++ name :: post ->
  Contours.contours_of transformer archive pre = (items, Return tt) ->
  PyStr.endswith name ".wkt" = true ->
  wkt_loads (Contours.zip_read archive name) = Return warped ->
  is_empty warped = true ->
  Contours.dewarped_contours transformer archive =
  (items, Raise (OtherError "AssertionError")).
Proof.
  intros Hnames Hpre Hwkt Hload Hempty.
  unfold Contours.dewarped_contours. rewrite Hnames, contours_of_app, Hpre.
  simpl. rewrite Hwkt. unfold Contours.contour. rewrite Hload, Hempty.
  simpl. now rewrite app_nil_r.
Qed.

End ContoursProperties.

Lemma dewarped_contours_accounts_for_all_witness :
  let archive := [("a.wkt", "Polygon"); ("meta.json", "{}"); ("c.wkt", "LineString");
                  ("d.wkt", "BOWTIE")] in
  let transformer := fun g : @geometry brittle_geometry =>
    Return (if String.eqb g "Polygon" then "GEOMETRYCOLLECTION EMPTY"
            else if String.eqb g "LineString" then "Point" else g) in
  let items := fst (Contours.dewarped_contours transformer archive) in
  snd (Contours.dewarped_contours transformer archive) = Return tt /\
  items = [Contours.LogWrongType (shapely := brittle_geometry) "a.wkt" "GEOMETRYCOLLECTION EMPTY";
           Contours.LogLost (shapely := brittle_geometry) "a.wkt" "Polygon";
           Contours.LogWrongType (shapely := brittle_geometry) "c.wkt" "Point";
           Contours.Yield (shapely := brittle_geometry) "c.wkt" "Point";
           Contours.LogWrongType (shapely := brittle_geometry) "d.wkt" "BOWTIE";
           Contours.LogInvalid (shapely := brittle_geometry) "BOWTIE";
           Contours.Yield (shapely := brittle_geometry) "d.wkt" "BOWTIE"] /\
  (length (Contours.yields items) + length (Contours.losses items))%nat =
    length (filter (fun n => PyStr.endswith n ".wkt") (Contours.namelist archive)) /\
  (forall i, In i items ->
     match i with
     | Contours.Yield name data =>
         In name (Contours.namelist archive) /\ PyStr.endswith name ".wkt" = true /\
         exists g, data = @wkt brittle_geometry g /\ @is_empty brittle_geometry g = false
     | Contours.LogLost name warped =>
         In name (Contours.namelist archive) /\ PyStr.endswith name ".wkt" = true /\
         @wkt_loads brittle_geometry (Contours.zip_read archive name) = Return warped
     | Contours.LogWrongType name type =>
         In name (Contours.namelist archive) /\ PyStr.endswith name ".wkt" = true /\
         type <> "Polygon" /\ type <> "LineString"
     | Contours.LogInvalid g => @is_valid brittle_geometry g = false
     end).
Proof.
  intros archive transformer items.
  assert (Hend : snd (Contours.dewarped_contours transformer archive) = Return tt)
    by (vm_compute; reflexivity).
  split; [exact Hend |]. split; [vm_compute; reflexivity |].
  destruct (@dewarped_contours_accounts_for_all brittle_geometry transformer archive Hend)
    as (Hcount & _ & Honly).
  split; [exact Hcount | exact Honly].
Defined.

Lemma dewarped_contours_stops_at_empty_contour_witness :
  let archive := [("a.wkt", "Polygon"); ("meta.json", "{}");
                  ("b.wkt", "GEOMETRYCOLLECTION EMPTY"); ("c.wkt", "LineString")] in
  Contours.dewarped_contours (shapely := text_geometry) (fun g => Return g) archive =
  ([Contours.Yield "a.wkt" "Polygon"], Raise (OtherError "AssertionError")).
Proof.
  intros archive.
  apply (@dewarped_contours_stops_at_empty_contour text_geometry (fun g => Return g)
           archive ["a.wkt"; "meta.json"] "b.wkt" ["c.wkt"]
           "GEOMETRYCOLLECTION EMPTY" [Contours.Yield "a.wkt" "Polygon"]).
  - reflexivity.
  - vm_compute. reflexivity.
  - reflexivity.
  - vm_compute. reflexivity.
  - vm_compute. reflexivity.
Defined.

(** ** _find_image_path *)

Lemma image_candidates_filter fs found :
  (forall c, In c found -> PyStr.endswith (Page.name c) ".jp2" = false ->
             exists what, Page.imghdr_what fs c = Return what) ->
  Page.image_candidates fs found = Return (filter (Page.is_image fs) found).
Proof.
  induction found as [| c found IH]; intros Hok; simpl; [reflexivity |].
  rewrite IH by (intros c' Hc'; apply Hok; now right).
  assert (Himg : Page.is_image fs c =
                 PyStr.endswith (Page.name c) ".jp2"
                 || match Page.imghdr_what fs c with
                    | Return (Some _) => true
                    | _ => false
                    end) by reflexivity.
  rewrite Himg.
  destruct (PyStr.endswith (Page.name c) ".jp2") eqn:E; simpl; [reflexivity |].
  destruct (Hok c (or_introl eq_refl) E) as [what ->].
  destruct what; reflexivity.
Qed.

(** A path that exists is returned as it is, image or not. Otherwise, if
    looking at the files with the same stem raises nothing, the result is
    the one among them that is named "*.jp2" or recognised as an image;
    with none or with several of them the search raises
    [FileNotFoundError]. *)
Theorem find_image_path_result fs path :
  (forall c, In c (Page.glob_stem fs path) ->
             PyStr.endswith (Page.name c) ".jp2" = false ->
             exists what, Page.imghdr_what fs c = Return what) ->
  Page._find_image_path fs path =
  if Page.path_exists fs path then Return path
  else match filter (Page.is_image fs) (Page.glob_stem fs path) with
       | [candidate] => Return candidate
       | _ => Raise FileNotFoundError
       end.
Proof.
  intros Hok. unfold Page._find_image_path.
  destruct (Page.path_exists fs path); [reflexivity |].
  now rewrite image_candidates_filter.
Qed.

Lemma find_image_path_result_witness :
  let path := Page.mkPath "scans" "page.jpg" in
  Page._find_image_path sample_directory path =
  if Page.path_exists sample_directory path then Return path
  else match filter (Page.is_image sample_directory)
                    (Page.glob_stem sample_directory path) with
       | [candidate] => Return candidate
       | _ => Raise FileNotFoundError
       end.
Proof.
  intros path.
  apply (@find_image_path_result sample_directory path).
  intros c Hc Hjp2. eexists. reflexivity.
Defined.

Example find_image_path_takes_the_jp2 :
  Page._find_image_path sample_directory (Page.mkPath "scans" "page.jpg") =
  Return (Page.mkPath "scans" "page.jp2").
Proof. reflexivity. Qed.

(** ** Pickling a DatabaseMutex *)

Section PickleProperties.

Variable Engine : Type.
Variable create_engine : MutexObject.value -> MutexObject.value -> outcome Engine.

Lemma connect_round_trip db_uri timeout self :
  MutexObject._connect create_engine db_uri timeout = Return self ->
  MutexObject.__setstate__ create_engine (MutexObject.__getstate__ self) = Return self.
Proof.
  unfold MutexObject._connect. intros H.
  destruct (create_engine db_uri timeout) as [engine | e] eqn:E; [| discriminate].
  inversion H; subst self; clear H.
  unfold MutexObject.__setstate__, MutexObject.__getstate__, MutexObject.getitem,
    MutexObject._connect. simpl. now rewrite E.
Qed.

(** The pickled state of a mutex holds the two connection parameters and
    nothing else, and [__setstate__] builds from it a mutex equal to the
    one pickled, for a mutex made by [__init__], whether the creation of
    the table failed with the operational error or not, and for one made
    by [__setstate__]. *)
Theorem pickle_round_trip path timeout create_all env s self logged s1 :
  MutexObject.__init__ create_engine path timeout create_all env s =
    (Return (self, logged), s1) ->
  MutexObject.__setstate__ create_engine (MutexObject.__getstate__ self) = Return self /\
  MutexObject.__getstate__ self =
    [("db_uri", MutexObject.VStr ("sqlite:///" ++ path)); ("timeout", timeout)] /\
  (forall newstate other,
     MutexObject.__setstate__ create_engine newstate = Return other ->
     MutexObject.__setstate__ create_engine (MutexObject.__getstate__ other) =
       Return other).
Proof.
  intros Hinit. unfold MutexObject.__init__ in Hinit.
  destruct (MutexObject._connect create_engine
              (MutexObject.VStr ("sqlite:///" ++ path)) timeout) as [made | e] eqn:E;
    [| discriminate].
  assert (Hself : self = made).
  { unfold try_except, bind, ret in Hinit.
    destruct (create_all env s) as [[[] | e] s'].
    - now inversion Hinit.
    - destruct e; try discriminate. now inversion Hinit. }
  subst made. split; [now apply (connect_round_trip _ _ E) |]. split.
  - unfold MutexObject._connect in E.
    destruct (create_engine _ _); [| discriminate]. now inversion E.
  - intros newstate other Hset. unfold MutexObject.__setstate__ in Hset.
    destruct (MutexObject.getitem newstate "db_uri") as [u | e]; [| discriminate].
    destruct (MutexObject.getitem newstate "timeout") as [t | e]; [| discriminate].
    now apply (connect_round_trip _ _ Hset).
Qed.

End PickleProperties.

Lemma pickle_round_trip_witness :
  let create_engine := fun u t : MutexObject.value => Return (u, t) in
  let busy_ddl : M unit := raise OperationalError in
  let self := fst (match fst (MutexObject.__init__ create_engine "origami.debug.mutex.db"
                                (MutexObject.VInt 1) busy_ddl never_busy idle) with
                   | Return made => made
                   | Raise _ => (MutexObject.mkObject (MutexObject.VInt 0)
                                   (MutexObject.VInt 0) None None None, [])
                   end) in
  MutexObject.__setstate__ create_engine (MutexObject.__getstate__ self) = Return self /\
  MutexObject.__getstate__ self =
    [("db_uri", MutexObject.VStr ("sqlite:///" ++ "origami.debug.mutex.db"));
     ("timeout", MutexObject.VInt 1)] /\
  (forall newstate other,
     MutexObject.__setstate__ create_engine newstate = Return other ->
     MutexObject.__setstate__ create_engine (MutexObject.__getstate__ other) =
       Return other).
Proof.
  intros create_engine busy_ddl self.
  apply (@pickle_round_trip _ create_engine "origami.debug.mutex.db"
           (MutexObject.VInt 1) busy_ddl never_busy idle self
           ["Metadata creation failed."] idle).
  reflexivity.
Defined.

(** ** Annotations.create_multi_class_contours *)

Section AnnotationsProperties.

Variable class : Type.
Variable class_eqb : class -> class -> bool.
Variable base_geometry : Type.
Variable other_shape : Type.
Variable affine_transform : base_geometry -> base_geometry.
Variable shape_affine_transform : other_shape -> other_shape.

Hypothesis class_eqb_eq : forall a b, class_eqb a b = true <-> a = b.

Local Abbreviation shape := (Annotations.shape base_geometry other_shape).
Local Abbreviation transformed :=
  (Annotations.transformed affine_transform shape_affine_transform).
Local Abbreviation append_to := (@Annotations.append_to class class_eqb base_geometry other_shape).
Local Abbreviation add_shapes :=
  (Annotations.add_shapes class_eqb affine_transform shape_affine_transform).

Lemma append_to_new (results : list (class * list shape)) k t :
  ~ In k (map fst results) ->
  append_to results k t = results ++ [(k, [t])].
Proof.
  induction results as [| [k' v] results IH]; simpl; intros Hk; [reflexivity |].
  destruct (class_eqb k' k) eqn:E.
  - apply class_eqb_eq in E. exfalso. apply Hk. now left.
  - rewrite IH by (intros Hin; apply Hk; now right). reflexivity.
Qed.

Lemma append_to_last (results : list (class * list shape)) k v t :
  ~ In k (map fst results) ->
  append_to (results ++ [(k, v)]) k t = results ++ [(k, v ++ [t])].
Proof.
  induction results as [| [k' v'] results IH]; simpl; intros Hk.
  - assert (E : class_eqb k k = true) by now apply class_eqb_eq.
    now rewrite E.
  - destruct (class_eqb k' k) eqn:E.
    + apply class_eqb_eq in E. exfalso. apply Hk. now left.
    + rewrite IH by (intros Hin; apply Hk; now right). reflexivity.
Qed.

Lemma add_shapes_last shapes : forall (results : list (class * list shape)) k v,
  ~ In k (map fst results) ->
  add_shapes (results ++ [(k, v)]) k shapes =
  results ++ [(k, v ++ map transformed shapes)].
Proof.
  unfold Annotations.add_shapes.
  induction shapes as [| s shapes IH]; intros results k v Hk; simpl.
  - now rewrite app_nil_r.
  - rewrite append_to_last by exact Hk. rewrite IH by exact Hk.
    now rewrite <- app_assoc.
Qed.

Lemma add_shapes_new (results : list (class * list shape)) k shapes :
  ~ In k (map fst results) ->
  add_shapes results k shapes =
  match shapes with
  | [] => results
  | _ => results ++ [(k, map transformed shapes)]
  end.
Proof.
  intros Hk. destruct shapes as [| s shapes]; [reflexivity |].
  unfold Annotations.add_shapes. simpl.
  rewrite append_to_new by exact Hk.
  exact (@add_shapes_last shapes results k [transformed s] Hk).
Qed.

(** The result has one entry for each class of [data] that has a shape,
    in the order of [data], with the transformed shapes of the class in
    their order; a class without shapes gets no entry. *)
Theorem create_multi_class_contours_result (data : list (class * list shape)) :
  NoDup (map fst data) ->
  Annotations.create_multi_class_contours class_eqb affine_transform
    shape_affine_transform data =
  map (fun entry => (fst entry, map transformed (snd entry)))
      (filter (fun entry => match snd entry with [] => false | _ => true end) data).
Proof.
  unfold Annotations.create_multi_class_contours.
  assert (H : forall (acc : list (class * list shape)),
    NoDup (map fst acc ++ map fst data) ->
    fold_left (fun acc entry => add_shapes acc (fst entry) (snd entry)) data acc =
    acc ++ map (fun entry => (fst entry, map transformed (snd entry)))
               (filter (fun entry => match snd entry with [] => false | _ => true end)
                       data)).
  { induction data as [| [k shapes] data IH]; intros acc Hnd; simpl.
    - now rewrite app_nil_r.
    - simpl in Hnd.
      assert (Hk : ~ In k (map fst acc)).
      { intros Hin. apply NoDup_remove_2 in Hnd. apply Hnd.
        apply in_or_app. now left. }
      rewrite add_shapes_new by exact Hk.
      destruct shapes as [| s shapes].
      + apply IH. now apply NoDup_remove_1 in Hnd.
      + rewrite IH.
        * now rewrite <- app_assoc.
        * rewrite map_app. simpl. rewrite <- app_assoc. exact Hnd. }
  intros Hnd. exact (H [] Hnd).
Qed.

End AnnotationsProperties.

Lemma create_multi_class_contours_result_witness :
  let data := [("TEXT", [Annotations.BaseGeometry nat 1%nat; Annotations.OtherShape nat 5%nat]);
               ("TABULAR", []);
               ("ILLUSTRATION", [Annotations.OtherShape nat 7%nat])] in
  Annotations.create_multi_class_contours String.eqb S (fun o => (o + 10)%nat) data =
  map (fun entry => (fst entry,
                     map (Annotations.transformed S (fun o => (o + 10)%nat)) (snd entry)))
      (filter (fun entry => match snd entry with [] => false | _ => true end) data).
Proof.
  intros data.
  apply (@create_multi_class_contours_result string String.eqb nat nat S
           (fun o => (o + 10)%nat) String.eqb_eq data).
  repeat constructor; simpl; intuition discriminate.
Defined.

